(** * scg-support/util: generic slice helpers, embedded and verified

    The Go package [util] is a collection of free functions over slices.
    A Go slice value is either [nil] or a (possibly empty) window on a
    backing array.  Two views of the package are given here:

    - the value view (this first part): a slice is [option (list E)],
      [None] being Go's [nil]; it captures what each function returns,
      including the nil / empty distinction;
    - the memory view (module [Mem], further down): slice headers over a
      store of backing arrays, which captures sharing between the slices a
      function receives and the slices it returns. *)

From stdpp Require Import gmap list.
From Stdlib Require Strings.Byte.

Local Open Scope Z_scope.

(** ** Go's [int]

    [int] is taken to be 64 bits wide.  Lengths, indices and counters that
    are bounded by the length of a slice in memory are written as plain
    integers; where a sum or a conversion can leave the range of [int], the
    wrap-around is written out with [to_int]. *)

Definition int_bits : Z := 64.

Definition to_int (z : Z) : Z :=
  (z + 2 ^ (int_bits - 1)) `mod` 2 ^ int_bits - 2 ^ (int_bits - 1).

(** ** Slices as values *)

Abbreviation Slice E := (option (list E)).

Section SliceValues.
Context {E : Type}.

(** The elements of a slice; a nil slice has none. *)
Definition elems (s : Slice E) : list E := default [] s.

(** Go's [len], as a Go [int]. *)
Definition len (s : Slice E) : Z := Z.of_nat (length (elems s)).

(** Go's [append(s, x)]: the result is never nil. *)
Definition append (s : Slice E) (x : E) : Slice E := Some (elems s ++ [x]).

(** [slices.Clone]: nil stays nil, anything else is copied. *)
Definition Clone (s : Slice E) : Slice E :=
  match s with
  | None => None
  | Some l => Some l
  end.

(** [for index, item := range l { acc = body(acc, index, item) }],
    started at index [i].  An index is below the length of the slice, so
    it is a natural number here; callbacks receive it as such. *)
Fixpoint range_from {A : Type} (body : A → nat → E → A)
    (i : nat) (l : list E) (acc : A) : A :=
  match l with
  | [] => acc
  | item :: rest => range_from body (S i) rest (body acc i item)
  end.

Definition range {A : Type} (body : A → nat → E → A) (l : list E) (acc : A) : A :=
  range_from body 0 l acc.

(** sliceutil.go, [Map].  [make([]R, len(collection))] is filled with
    the zero value of [R] before the loop stores into it; every index the
    loop stores at is inside [result]. *)
Definition Map {R : Type} (zero : R) (collection : Slice E)
    (iteratee : E → nat → R) : Slice R :=
  match collection with
  | None => None
  | Some l =>
      Some (range (λ result index item, <[index := iteratee item index]> result)
                  l (replicate (length l) zero))
  end.

(** sliceutil.go, [Filter]. *)
Definition Filter (collection : Slice E) (predicate : E → nat → bool) : Slice E :=
  match collection with
  | None => None
  | Some l =>
      range (λ result index item,
               if predicate item index then append result item else result)
            l None
  end.

(** sliceutil.go, [Reduce]. *)
Definition Reduce {R : Type} (collection : Slice E) (initialValue : R)
    (reducer : R → E → nat → R) : R :=
  if len collection =? 0 then initialValue
  else range (λ result i item, reducer result item i) (elems collection) initialValue.

(** [MapReduce]: the mapper and the reducer run in one pass. *)
Definition MapReduce {M R : Type} (collection : Slice E) (mapper : E → nat → M)
    (initialValue : R) (reducer : R → M → nat → R) : R :=
  if len collection =? 0 then initialValue
  else range (λ result i item,
                let mapped := mapper item i in
                reducer result mapped i)
             (elems collection) initialValue.

(** [Partition]. *)
Definition Partition (collection : Slice E) (predicate : E → nat → bool)
    : Slice E * Slice E :=
  match collection with
  | None => (None, None)
  | Some l =>
      let '(matched, unmatched) :=
        range (λ '(matched, unmatched) i item,
                 if predicate item i
                 then (append matched item, unmatched)
                 else (matched, append unmatched item))
              l (None, None) in
      let matched :=
        if (len matched =? 0) && (len collection >? 0) then Some [] else matched in
      let unmatched :=
        if (len unmatched =? 0) && (len collection >? 0) then Some [] else unmatched in
      (matched, unmatched)
  end.

(** additional_functions.go, [Take].  [n] is a Go [int]. *)
Definition Take (collection : Slice E) (n : Z) : Slice E :=
  match collection with
  | None => None
  | Some l =>
      if n <=? 0 then Some []
      else
        let length := len collection in
        if n >=? length then Clone collection
        else Clone (Some (take (Z.to_nat n) l))
  end.

(** additional_functions.go, [Drop]. *)
Definition Drop (collection : Slice E) (n : Z) : Slice E :=
  match collection with
  | None => None
  | Some l =>
      let length := len collection in
      if n <=? 0 then Clone collection
      else if n >=? length then Some []
      else Clone (Some (drop (Z.to_nat n) l))
  end.
End SliceValues.

(** ** Functions on comparable elements

    Go's [comparable] constraint is what lets the element type be a map
    key; here it is [EqDecision] and [Countable], the key type of [gset]
    and [gmap]. *)

Section Comparable.
Context `{Countable E}.

(** sliceutil.go, [Unique].  [seen] is a [map[E]struct{}], a set. *)
Definition Unique (collection : Slice E) : Slice E :=
  match collection with
  | None => None
  | Some l =>
      (fold_left (λ '(seen, result) item,
                    if decide (item ∈ seen) then (seen, result)
                    else ({[item]} ∪ seen, append result item))
                 l ((∅ : gset E), None)).2
  end.

(** Reading a [map[E]int] / [map[E]bool]: a missing key reads as the
    zero value. *)
Definition count_of (m : gmap E Z) (item : E) : Z := default 0 (m !! item).
Definition flag_of (m : gmap E bool) (item : E) : bool := default false (m !! item).

(** The inner loop of [Intersect]: one of the other slices is scanned and
    every distinct element of it bumps its counter once. *)
Definition count_slice (elementCounts : gmap E Z) (collection : Slice E)
    : gmap E Z :=
  (fold_left (λ '(seen, counts) item,
                if negb (flag_of seen item)
                then (<[item := true]> seen,
                      <[item := count_of counts item + 1]> counts)
                else (seen, counts))
             (elems collection) ((∅ : gmap E bool), elementCounts)).2.

(** sliceutil.go, [Intersect]; the variadic parameter is a list. *)
Definition Intersect (collections : list (Slice E)) : Slice E :=
  match collections with
  | [] => None
  | [only] => only
  | first :: others =>
      let elementCounts := fold_left count_slice others ∅ in
      let '(result, _) :=
        fold_left (λ '(result, seen) item,
                     if negb (flag_of seen item)
                        && (count_of elementCounts item
                            =? Z.of_nat (length collections) - 1)
                     then (append result item, <[item := true]> seen)
                     else (result, seen))
                  (elems first) (None, (∅ : gmap E bool)) in
      if (len result =? 0) && (len first >? 0) then Some [] else result
  end.

(** additional_functions.go, [Difference]. *)
Definition Difference (first : Slice E) (others : list (Slice E)) : Slice E :=
  match first with
  | None => None
  | Some l =>
      let exclude : gset E :=
        fold_left (λ exclude other,
                     fold_left (λ exclude item, {[item]} ∪ exclude)
                               (elems other) exclude)
                  others ∅ in
      fold_left (λ result item,
                   if decide (item ∈ exclude) then result else append result item)
                l None
  end.
End Comparable.

(** ** Shuffle and its entropy source

    [readRandom] is a package variable holding [crypto/rand.Read]; tests
    replace it.  The source is modelled as a function [source k n]: what the
    [k]-th call (counted from 0) does when handed a buffer of [n] bytes,
    [None] for an error, [Some bs] for the bytes it writes.  The state that
    is threaded through [Shuffle] is the list of buffer sizes requested so
    far, so the number of calls made is its length. *)

Definition world : Type := list nat.

Definition byte_val (b : Byte.byte) : Z := Z.of_N (Byte.to_N b).

(** [binary.BigEndian.Uint16] and [Uint32], as the standard library writes
    them; [None] is the run-time panic of an out-of-range index. *)
Definition Uint16 (b : list Byte.byte) : option Z :=
  b0 ← b !! 0%nat; b1 ← b !! 1%nat;
  Some (Z.lor (byte_val b1) (Z.shiftl (byte_val b0) 8)).

Definition Uint32 (b : list Byte.byte) : option Z :=
  b0 ← b !! 0%nat; b1 ← b !! 1%nat; b2 ← b !! 2%nat; b3 ← b !! 3%nat;
  Some (Z.lor (Z.lor (Z.lor (byte_val b3) (Z.shiftl (byte_val b2) 8))
                     (Z.shiftl (byte_val b1) 16))
              (Z.shiftl (byte_val b0) 24)).

(** The buffer [make([]byte, n)] after a successful read that wrote [bs]. *)
Definition filled (n : nat) (bs : list Byte.byte) : list Byte.byte :=
  take n (bs ++ replicate n Byte.x00).

Section Shuffle.
Context {E : Type}.
Variable source : nat → nat → option (list Byte.byte).

Definition readRandom (n : nat) (w : world) : option (list Byte.byte) * world :=
  (filled n <$> source (length w) n, w ++ [n]).

(** [result[i], result[j] = result[j], result[i]]: both operands are read,
    then position [i] and position [j] are written.  [None] is the panic
    of an index out of range. *)
Definition swap (result : list E) (i j : Z) : option (list E) :=
  if (i <? 0) || (j <? 0) then None
  else
    at_i ← result !! Z.to_nat i;
    at_j ← result !! Z.to_nat j;
    Some (<[Z.to_nat j := at_i]> (<[Z.to_nat i := at_j]> result)).

Definition maxBytes_for (i : Z) : nat :=
  let maxBytes := 1%nat in
  let maxBytes := if i >? 255 then 2%nat else maxBytes in
  let maxBytes := if i >? 65535 then 4%nat else maxBytes in
  maxBytes.

(** The [switch maxBytes] that turns the buffer into [randomInt]: the
    conversion [int(...)] is [to_int], Go's [%] is [Z.rem].  [i] is below
    the length of the slice, so [i + 1] stays in range. *)
Definition randomInt_of (maxBytes : nat) (randomBytes : list Byte.byte) (i : Z)
    : option Z :=
  match maxBytes with
  | 1%nat => b0 ← randomBytes !! 0%nat; Some (Z.rem (to_int (byte_val b0)) (i + 1))
  | 2%nat => v ← Uint16 randomBytes; Some (Z.rem (to_int v) (i + 1))
  | 4%nat => v ← Uint32 randomBytes; Some (Z.rem (to_int v) (i + 1))
  | _ => Some 0
  end.

(** [for i := length - 1; i > 0; i-- { ... }], entered with the current
    [i].  The first component of the outcome is [None] when the body
    panics, and otherwise the slice contents that [Shuffle] returns. *)
Fixpoint shuffle_loop (i : nat) (result : list E) (w : world)
    : option (list E) * world :=
  match i with
  | O => (Some result, w)
  | S i' =>
      let maxBytes := maxBytes_for (Z.of_nat i) in
      match readRandom maxBytes w with
      | (None, w') => (Some result, w')
      | (Some randomBytes, w') =>
          match randomInt_of maxBytes randomBytes (Z.of_nat i)
                ≫= swap result (Z.of_nat i) with
          | None => (None, w')
          | Some result' => shuffle_loop i' result' w'
          end
      end
  end.

(** [Shuffle]. *)
Definition Shuffle (collection : Slice E) (w : world)
    : option (Slice E) * world :=
  match collection with
  | None => (Some None, w)
  | Some l =>
      let length := len collection in
      if length <=? 1 then (Some (Clone collection), w)
      else
        let result := Clone collection in
        let '(out, w') := shuffle_loop (Z.to_nat (length - 1)) (elems result) w in
        (Some <$> out, w')
  end.
End Shuffle.

(** ** Slices in memory

    A slice header names a backing array, a window on it and the room left
    behind the window.  The store holds the backing arrays; an array is
    named by its position in the store, arrays are never freed, and a new
    array goes to the end.  [view] reads a header back as a slice value. *)

Module Mem.
Record slice : Type := Header {
  base : option nat;   (* the backing array; [None] for the nil slice *)
  off : nat;           (* where the window starts in the array *)
  len : nat;
  cap : nat
}.

Definition nil : slice := Header None 0 0 0.

Definition is_nil (s : slice) : bool :=
  match base s with None => true | Some _ => false end.

(** The store: the backing arrays, in the order of their allocation. *)
Abbreviation store E := (list (list E)).

Section Store.
Context {E : Type}.
(** The zero value of [E], and the capacity the run time picks when
    [append] has to move a slice of capacity [c] (it is raised to the
    length needed when the policy proposes less). *)
Variable zero : E.
Variable grow : nat → nat.

Definition array (h : store E) (b : nat) : list E := default [] (h !! b).

Definition view (h : store E) (s : slice) : Slice E :=
  b ← base s; Some (take (len s) (drop (off s) (array h b))).

(** A header is valid in a store when its window and its capacity lie
    inside its backing array. *)
Definition valid (h : store E) (s : slice) : Prop :=
  match base s with
  | None => len s = 0%nat ∧ cap s = 0%nat
  | Some b =>
      (b < length h)%nat ∧ (len s ≤ cap s)%nat
      ∧ (off s + cap s ≤ length (array h b))%nat
  end.

Definition alloc (a : list E) (h : store E) : nat * store E :=
  (length h, h ++ [a]).

(** The composite literal [S{}]: empty, not nil. *)
Definition empty (h : store E) : slice * store E :=
  let '(b, h') := alloc [] h in (Header (Some b) 0 0 0, h').

(** [s[i:j]]; [None] is the panic of bounds out of range. *)
Definition subslice (s : slice) (i j : Z) : option slice :=
  if decide (0 ≤ i ∧ i ≤ j ∧ j ≤ Z.of_nat (cap s))
  then Some (Header (base s) (off s + Z.to_nat i) (Z.to_nat (j - i))
                    (cap s - Z.to_nat i))
  else None.

(** [s[i] = x]; [None] is the panic of an index out of range. *)
Definition store_at (s : slice) (i : nat) (x : E) (h : store E) : option (store E) :=
  b ← base s;
  if decide (i < len s)%nat
  then Some (<[b := <[(off s + i)%nat := x]> (array h b)]> h)
  else None.

(** [append(s, xs...)]: written behind the window when there is room,
    moved to a new array otherwise. *)
Definition append_all (s : slice) (xs : list E) (h : store E) : slice * store E :=
  let n := (len s + length xs)%nat in
  if decide (n ≤ cap s)%nat then
    match base s with
    | Some b =>
        let a := array h b in
        let a' := take (off s + len s) a ++ xs ++ drop (off s + n) a in
        (Header (base s) (off s) n (cap s), <[b := a']> h)
    | None => (s, h)
    end
  else
    let c := (n `max` grow (cap s))%nat in
    let '(b, h') :=
      alloc (elems (view h s) ++ xs ++ replicate (c - n) zero) h in
    (Header (Some b) 0 n c, h').

Definition append (s : slice) (x : E) (h : store E) : slice * store E :=
  append_all s [x] h.

(** [slices.Clone(s)] is [append(s[:0:0], s...)]. *)
Definition Clone (s : slice) (h : store E) : slice * store E :=
  append_all (Header (base s) (off s) 0 0) (elems (view h s)) h.

(** sliceutil.go, [Chunk].  The loop [for i := 0; i < length; i += size]
    is run with a bound on its iterations, which [length + 1] of them never
    reach because [size] is at least 1.  The sums [i + size] wrap around as
    Go's do.  The outer slice is a new one and is given as a value; the
    groups are headers. *)
Fixpoint chunk_loop (fuel : nat) (collection : slice) (length size i : Z)
    (chunks : list slice) : option (list slice) :=
  match fuel with
  | O => Some chunks
  | S fuel' =>
      if i <? length then
        let end_ := to_int (i + size) in
        let end_ := if end_ >? length then length else end_ in
        group ← subslice collection i end_;
        chunk_loop fuel' collection length size (to_int (i + size))
                   (chunks ++ [group])
      else Some chunks
  end.

(** The outer [option] is a panic, the inner one the nil result.
    [make([]S, 0, chunksCount)] panics on a negative capacity. *)
Definition Chunk (collection : slice) (size : Z) : option (option (list slice)) :=
  if is_nil collection || (size <? 1) then Some None
  else
    let length := Z.of_nat (len collection) in
    if length =? 0 then Some (Some [])
    else
      let chunksCount := Z.quot (to_int (length + size - 1)) size in
      if chunksCount <? 0 then None
      else Some <$> chunk_loop (S (len collection)) collection length size 0 [].

(** additional_functions.go, [Take]; [None] is a panic. *)
Definition Take (collection : slice) (n : Z) (h : store E)
    : option (slice * store E) :=
  if is_nil collection then Some (nil, h)
  else if n <=? 0 then Some (empty h)
  else
    let length := Z.of_nat (len collection) in
    if n >=? length then Some (Clone collection h)
    else
      prefix ← subslice collection 0 n;
      Some (Clone prefix h).
End Store.

Section ComparableStore.
Context `{Countable E}.
Variable zero : E.
Variable grow : nat → nat.

(** sliceutil.go, [Intersect].  The elements of the first slice are read
    once, before the loop: the loop only appends to [result], which never
    writes into an array that was there before (see [Intersect_loop_agree]
    below). *)
Definition Intersect (collections : list slice) (h : store E)
    : slice * store E :=
  match collections with
  | [] => (nil, h)
  | [only] => (only, h)
  | first :: others =>
      let elementCounts :=
        fold_left (λ counts other, count_slice counts (view h other)) others ∅ in
      let '(result, _, h') :=
        fold_left (λ '(result, seen, h) item,
                     if negb (flag_of seen item)
                        && (count_of elementCounts item
                            =? Z.of_nat (length collections) - 1)
                     then
                       let '(result', h') := append zero grow result item h in
                       (result', <[item := true]> seen, h')
                     else (result, seen, h))
                  (elems (view h first)) (nil, (∅ : gmap E bool), h) in
      if (Z.of_nat (len result) =? 0) && (Z.of_nat (len first) >? 0)
      then empty h' else (result, h')
  end.
End ComparableStore.
End Mem.

(** ** The rest of the package, on values *)

Section MoreValues.
Context {E : Type}.


(** The builtin [copy(dst, src)]: as many elements as both hold. *)
Definition copy_into (dst src : list E) : list E :=
  take (length dst) src ++ drop (length src) dst.

(** sliceutil.go, [Pluck]. *)
Definition Pluck {R : Type} (zero : R) (collection : Slice E)
    (propertyGetter : E → R) : Slice R :=
  match collection with
  | None => None
  | Some l =>
      Some (range (λ result index item, <[index := propertyGetter item]> result)
                  l (replicate (length l) zero))
  end.


(** sliceutil.go, [GroupBy].  Reading a key that is not in the map gives
    the nil slice. *)
Definition GroupBy `{Countable K} (collection : Slice E) (keySelector : E → K)
    : option (gmap K (Slice E)) :=
  match collection with
  | None => None
  | Some l =>
      Some (fold_left (λ (result : gmap K (Slice E)) item,
                         let key := keySelector item in
                         <[key := append (default None (result !! key)) item]> result)
                      l ∅)
  end.

(** additional_functions.go, [ForEach]; what [action] does is a change of
    some state [St]. *)
Definition ForEach {St : Type} (collection : Slice E) (action : E → nat → St → St)
    (st : St) : St :=
  range (λ st i item, action item i st) (elems collection) st.

(** [slices.Reverse]: [for i, j := 0, len(s)-1; i < j; i, j = i+1, j-1],
    with a bound on the iterations that half the length never exceeds. *)
Fixpoint reverse_loop (fuel : nat) (i j : Z) (s : list E) : option (list E) :=
  match fuel with
  | O => Some s
  | S fuel' =>
      if i <? j then s' ← swap s i j; reverse_loop fuel' (i + 1) (j - 1) s'
      else Some s
  end.

Definition slices_Reverse (s : list E) : option (list E) :=
  reverse_loop (length s) 0 (Z.of_nat (length s) - 1) s.

(** additional_functions.go, [Reverse]; the outer [option] is a panic. *)
Definition Reverse (zero : E) (collection : Slice E) : option (Slice E) :=
  match collection with
  | None => Some None
  | Some l =>
      let length_ := len collection in
      if length_ =? 0 then Some (Some [])
      else
        let result := replicate (Z.to_nat length_) zero in
        let result := copy_into result l in
        Some <$> slices_Reverse result
  end.

(** The loop of [FindFirst], which returns from inside. *)
Fixpoint find_from (predicate : E → nat → bool) (i : nat) (l : list E) : option E :=
  match l with
  | [] => None
  | item :: rest =>
      if predicate item i then Some item else find_from predicate (S i) rest
  end.

(** [FindFirst]; [zero] is the zero value of [E]. *)
Definition FindFirst (zero : E) (collection : Slice E)
    (predicate : E → nat → bool) : E * bool :=
  if len collection =? 0 then (zero, false)
  else
    match find_from predicate 0 (elems collection) with
    | Some item => (item, true)
    | None => (zero, false)
    end.

(** The loop of [FindLast], [for i := len(collection) - 1; i >= 0; i--],
    entered with [n = i + 1]; the outer [option] is the panic of
    [collection[i]] out of range. *)
Fixpoint find_last_loop (predicate : E → nat → bool) (n : nat) (l : list E)
    : option (option E) :=
  match n with
  | O => Some None
  | S i =>
      item ← l !! i;
      if predicate item i then Some (Some item)
      else find_last_loop predicate i l
  end.

(** [FindLast]. *)
Definition FindLast (zero : E) (collection : Slice E)
    (predicate : E → nat → bool) : option (E * bool) :=
  if len collection =? 0 then Some (zero, false)
  else
    found ← find_last_loop predicate (length (elems collection)) (elems collection);
    match found with
    | Some item => Some (item, true)
    | None => Some (zero, false)
    end.

(** The loop of [Zip], [for i := range result], over the indices of
    [result]; [None] is the panic of an index out of range. *)
Fixpoint zip_loop {E2 : Type} (indices : list nat) (slice1 : list E)
    (slice2 : list E2) (result : list (E * E2)) : option (list (E * E2)) :=
  match indices with
  | [] => Some result
  | i :: rest =>
      a ← slice1 !! i; b ← slice2 !! i;
      zip_loop rest slice1 slice2 (<[i := (a, b)]> result)
  end.

(** [Zip].  A [[2]any] is a pair here; [zero] is the zero pair that
    [make] fills the result with and that every index overwrites. *)
Definition Zip {E2 : Type} (zero : E * E2) (slice1 : Slice E) (slice2 : Slice E2)
    : option (Slice (E * E2)) :=
  match slice1, slice2 with
  | Some l1, Some l2 =>
      let len1 := len slice1 in
      let len2 := len slice2 in
      let minLen := len1 in
      let minLen := if len2 <? minLen then len2 else minLen in
      if minLen =? 0 then Some (Some [])
      else
        let result := replicate (Z.to_nat minLen) zero in
        Some <$> zip_loop (seq 0 (length result)) l1 l2 result
  | _, _ => Some None
  end.

(** [ZipWithIndex]; the index is a Go [int]. *)
Definition ZipWithIndex (zero : E * Z) (collection : Slice E) : Slice (E * Z) :=
  match collection with
  | None => None
  | Some l =>
      let length_ := len collection in
      if length_ =? 0 then Some []
      else
        Some (range (λ result i item, <[i := (item, Z.of_nat i)]> result)
                    l (replicate (Z.to_nat length_) zero))
  end.
End MoreValues.

Section MoreComparable.
Context `{Countable E}.

(** Go's [==] on the elements is equality here; element types on which it
    is not (a floating-point NaN) are left out. *)

(** [slices.Index]: the first index at which [v] is found, or -1. *)
Fixpoint index_from (i : Z) (s : list E) (v : E) : Z :=
  match s with
  | [] => -1
  | x :: rest => if decide (v = x) then i else index_from (i + 1) rest v
  end.

Definition slices_Index (s : Slice E) (v : E) : Z := index_from 0 (elems s) v.

(** [slices.Contains] is [Index(s, v) >= 0]. *)
Definition slices_Contains (s : Slice E) (v : E) : bool := slices_Index s v >=? 0.

(** additional_functions.go, [Contains] and [IndexOf]. *)
Definition Contains (collection : Slice E) (element : E) : bool :=
  slices_Contains collection element.

Definition IndexOf (collection : Slice E) (element : E) : Z :=
  slices_Index collection element.

(** The loop of [LastIndexOf], entered with [n = i + 1]; [None] is the
    panic of [collection[i]] out of range. *)
Fixpoint last_index_loop (n : nat) (l : list E) (element : E) : option Z :=
  match n with
  | O => Some (-1)
  | S i =>
      x ← l !! i;
      if decide (x = element) then Some (Z.of_nat i)
      else last_index_loop i l element
  end.

(** additional_functions.go, [LastIndexOf]. *)
Definition LastIndexOf (collection : Slice E) (element : E) : option Z :=
  last_index_loop (length (elems collection)) (elems collection) element.

(** additional_functions.go, [Union]. *)
Definition Union (slices : list (Slice E)) : Slice E :=
  if Z.of_nat (length slices) =? 0 then None
  else
    (fold_left (λ '(seen, result) slice,
                  fold_left (λ '(seen, result) item,
                               if decide (item ∈ seen) then (seen, result)
                               else ({[item]} ∪ seen, append result item))
                            (elems slice) (seen, result))
               slices ((∅ : gset E), None)).2.
End MoreComparable.

(** [Drop] on the store: additional_functions.go, [Drop]; [None] is a
    panic. *)
Definition Mem_Drop {E : Type} (zero : E) (grow : nat → nat)
    (collection : Mem.slice) (n : Z) (h : Mem.store E)
    : option (Mem.slice * Mem.store E) :=
  if Mem.is_nil collection then Some (Mem.nil, h)
  else
    let length_ := Z.of_nat (Mem.len collection) in
    if n <=? 0 then Some (Mem.Clone zero grow collection h)
    else if n >=? length_ then Some (Mem.empty h)
    else
      suffix ← Mem.subslice collection n (Z.of_nat (Mem.len collection));
      Some (Mem.Clone zero grow suffix h).

(** ** Reference definitions

    What the specification says in words, written down independently of
    the loops above. *)

Section Reference.
Context {E : Type}.

(** The elements at which an indexed predicate holds, in order; indices
    are counted from [i]. *)
Fixpoint select_from (p : E → nat → bool) (i : nat) (l : list E) : list E :=
  match l with
  | [] => []
  | x :: rest => (if p x i then [x] else []) ++ select_from p (S i) rest
  end.

(** [f] applied to every element and its index, indices counted from [i]. *)
Fixpoint map_from {R : Type} (f : E → nat → R) (i : nat) (l : list E) : list R :=
  match l with
  | [] => []
  | x :: rest => f x i :: map_from f (S i) rest
  end.

(** First occurrences: an element of [l] is kept when it occurs neither
    in [before] nor earlier in [l]. *)
Fixpoint keep_first `{EqDecision E} (before l : list E) : list E :=
  match l with
  | [] => []
  | x :: rest =>
      (if decide (x ∈ before) then [] else [x]) ++ keep_first (before ++ [x]) rest
  end.

(** A slice that starts out as [acc] and has the elements [q] appended
    one by one: untouched when there is nothing to append, never nil
    otherwise. *)
Definition grown (acc : Slice E) (q : list E) : Slice E :=
  match q with
  | [] => acc
  | _ => Some (elems acc ++ q)
  end.

(** Swapping two positions of a list. *)
Definition exchange (l : list E) (i j : nat) : list E :=
  match l !! i, l !! j with
  | Some a, Some b => <[i := b]> (<[j := a]> l)
  | _, _ => l
  end.
End Reference.

(** A byte string read as a big-endian unsigned integer. *)
Definition big_endian (bs : list Byte.byte) : Z :=
  fold_left (λ acc b, 256 * acc + byte_val b) bs 0.

(** The number of random bytes the specification asks for at index [i]. *)
Definition spec_width (i : Z) : nat :=
  if decide (i ≤ 255) then 1%nat else if decide (i ≤ 65535) then 2%nat else 4%nat.

(** The buffer sizes requested by a Fisher–Yates pass from [i] down to 1. *)
Fixpoint spec_requests (i : nat) : list nat :=
  match i with
  | O => []
  | S i' => spec_width (Z.of_nat i) :: spec_requests i'
  end.

(** Fisher–Yates from index [i] down to 1.  [drawn k] is what the entropy
    source writes on the [k]-th draw; at index [i] the [spec_width i] bytes
    asked for are read as a big-endian number, reduced modulo [i + 1] to a
    position [j], and positions [i] and [j] are exchanged. *)
Fixpoint fisher_yates {E : Type} (drawn : nat → list Byte.byte)
    (i k : nat) (l : list E) : list E :=
  match i with
  | O => l
  | S i' =>
      let bytes := filled (spec_width (Z.of_nat i)) (drawn k) in
      let j := big_endian bytes `mod` (Z.of_nat i + 1) in
      fisher_yates drawn i' (S k) (exchange l i (Z.to_nat j))
  end.

(** * Properties *)

(** ** The loops of Filter and Partition *)

Section Selection.
Context {E : Type}.
Implicit Types (l : list E) (p : E → nat → bool) (acc : Slice E).

Lemma elems_append acc x : elems (append acc x) = elems acc ++ [x].
Proof. done. Qed.

Lemma len_zero (s : Slice E) :
  (len s =? 0) = match elems s with [] => true | _ => false end.
Proof.
  unfold len. by destruct (elems s).
Qed.

Lemma len_pos (s : Slice E) :
  (len s >? 0) = match elems s with [] => false | _ => true end.
Proof.
  unfold len. by destruct (elems s).
Qed.

Lemma grown_append acc x q : grown (append acc x) q = grown acc (x :: q).
Proof.
  destruct q; unfold grown, append; simpl; [done|].
  by rewrite <- app_assoc.
Qed.

Lemma elems_grown acc q : elems (grown acc q) = elems acc ++ q.
Proof. destruct q; simpl; [by rewrite app_nil_r|done]. Qed.

Lemma grown_nil (q : list E) : grown None q = None ↔ q = [].
Proof. by destruct q. Qed.

Lemma Filter_loop p l : ∀ i acc,
  range_from (λ result index item,
                if p item index then append result item else result) i l acc
  = grown acc (select_from p i l).
Proof.
  induction l as [|x rest IH]; intros i acc; simpl; [done|].
  rewrite IH. destruct (p x i); simpl; [|done]. apply grown_append.
Qed.

Lemma Filter_present p l : Filter (Some l) p = grown None (select_from p 0 l).
Proof. unfold Filter, range. apply Filter_loop. Qed.

Lemma Partition_loop p l : ∀ i (matched unmatched : Slice E),
  range_from (λ '(matched, unmatched) i item,
                if p item i
                then (append matched item, unmatched)
                else (matched, append unmatched item))
             i l (matched, unmatched)
  = (grown matched (select_from p i l),
     grown unmatched (select_from (λ x k, negb (p x k)) i l)).
Proof.
  induction l as [|x rest IH]; intros i matched unmatched; simpl; [done|].
  destruct (p x i); simpl; rewrite IH; by rewrite grown_append.
Qed.

Lemma select_from_split p l : ∀ i,
  select_from p i l ++ select_from (λ x k, negb (p x k)) i l ≡ₚ l.
Proof.
  induction l as [|x rest IH]; intros i; simpl; [done|].
  destruct (p x i); simpl.
  - by rewrite IH.
  - rewrite <- Permutation_middle. by rewrite IH.
Qed.

Lemma select_from_sublist p l : ∀ i, select_from p i l `sublist_of` l.
Proof.
  induction l as [|x rest IH]; intros i; simpl; [done|].
  destruct (p x i); simpl; [apply sublist_skip | apply sublist_cons]; apply IH.
Qed.

Lemma select_from_none p l : ∀ i,
  select_from p i l = [] ↔ ∀ k x, l !! k = Some x → p x (i + k)%nat = false.
Proof.
  induction l as [|x rest IH]; intros i; simpl.
  - split; [intros _ k x; by rewrite lookup_nil | done].
  - split.
    + intros Hnil k y Hk. destruct (p x i) eqn:Hp; [done|]. simpl in Hnil.
      destruct k as [|k]; simpl in Hk.
      * injection Hk as <-. by rewrite Nat.add_0_r.
      * replace (i + S k)%nat with (S i + k)%nat by lia.
        by apply (proj1 (IH (S i)) Hnil k y).
    + intros Hall. rewrite <- (Nat.add_0_r i). rewrite (Hall 0%nat x); [|done].
      simpl. apply IH. intros k y Hk.
      replace (S (i + 0) + k)%nat with (i + S k)%nat by lia. by apply Hall.
Qed.
End Selection.

(** ** Filter *)

(** C1, as the code has it.  [Filter] of nil is nil.  On a present slice it
    returns the qualifying elements in their original order; the result is
    nil, not an empty slice, exactly when no element qualifies, which covers
    the empty input and the populated input without a match. *)
Theorem Filter_nil_unless_match {E : Type} (p : E → nat → bool) :
  Filter None p = None
  ∧ (∀ l, elems (Filter (Some l) p) = select_from p 0 l)
  ∧ (∀ l, Filter (Some l) p = None ↔ select_from p 0 l = [])
  ∧ Filter (Some []) p = None
  ∧ (∀ l, (∀ k x, l !! k = Some x → p x k = false) → Filter (Some l) p = None).
Proof.
  split_and!; try done.
  - intros l. rewrite Filter_present. by rewrite elems_grown.
  - intros l. rewrite Filter_present. apply grown_nil.
  - intros l Hnone. rewrite Filter_present. apply grown_nil.
    apply select_from_none. intros k x Hk. by apply Hnone.
Qed.

(** C1 as stated fails: for a present slice without a match, and for the
    present empty slice, [Filter] hands back nil. *)
Lemma Filter_no_match_counterexample :
  Filter (Some [1; 3; 5]) (λ item _, Z.even item) = None
  ∧ Filter (Some [1; 3; 5]) (λ item _, Z.even item) ≠ Some []
  ∧ Filter (Some []) (λ (item : Z) _, true) = None.
Proof. by split_and!. Qed.

(** ** Partition *)

(** C8.  [Partition] of nil is a pair of nils.  On a present slice the
    element at index [k] goes to the first result when the predicate holds
    of it and to the second when it does not, each side keeping the source
    order; so the two lengths add up to the length of the input, and for a
    populated input neither side is nil, even when it is empty. *)
Theorem Partition_total {E : Type} (p : E → nat → bool) :
  Partition None p = (None, None)
  ∧ ∀ l,
      let matched := (Partition (Some l) p).1 in
      let unmatched := (Partition (Some l) p).2 in
      elems matched = select_from p 0 l
      ∧ elems unmatched = select_from (λ x k, negb (p x k)) 0 l
      ∧ (length (elems matched) + length (elems unmatched))%nat = length l
      ∧ elems matched ++ elems unmatched ≡ₚ l
      ∧ elems matched `sublist_of` l
      ∧ elems unmatched `sublist_of` l
      ∧ (l ≠ [] → is_Some matched ∧ is_Some unmatched).
Proof.
  split; [done|]. intros l.
  assert (Partition (Some l) p
          = (let m := grown None (select_from p 0 l) in
             let u := grown None (select_from (λ x k, negb (p x k)) 0 l) in
             (if (len m =? 0) && (len (Some l) >? 0) then Some [] else m,
              if (len u =? 0) && (len (Some l) >? 0) then Some [] else u)))
    as Heq.
  { unfold Partition, range. by rewrite Partition_loop. }
  rewrite Heq. clear Heq. cbv zeta. simpl fst. simpl snd.
  rewrite !len_zero, !len_pos, !elems_grown. simpl app. simpl (elems (Some l)).
  pose proof (select_from_split p l 0) as Hperm.
  pose proof (select_from_sublist p l 0) as Hsub1.
  pose proof (select_from_sublist (λ x k, negb (p x k)) l 0) as Hsub2.
  set (m := select_from p 0 l) in *.
  set (u := select_from (λ x k, negb (p x k)) 0 l) in *.
  assert (elems (if match m with [] => true | _ => false end
                    && match l with [] => false | _ => true end
                 then Some [] else grown None m) = m) as Hm.
  { destruct m, l; simpl; done. }
  assert (elems (if match u with [] => true | _ => false end
                    && match l with [] => false | _ => true end
                 then Some [] else grown None u) = u) as Hu.
  { destruct u, l; simpl; done. }
  rewrite Hm, Hu. split_and!; try done.
  - rewrite <- length_app. by rewrite Hperm.
  - intros Hl. destruct l as [|x l]; [done|].
    split; [destruct m | destruct u]; simpl; eauto.
Qed.

(** ** Take and Drop *)

Section TakeDrop.
Context {E : Type}.

Lemma Clone_id (s : Slice E) : Clone s = s.
Proof. by destruct s. Qed.

Lemma Take_present (l : list E) n : Take (Some l) n = Some (take (Z.to_nat n) l).
Proof.
  unfold Take, len. simpl elems. rewrite !Clone_id.
  destruct (Z.leb_spec n 0) as [Hn|Hn].
  - by replace (Z.to_nat n) with 0%nat by lia.
  - destruct (n >=? Z.of_nat (length l)) eqn:Hge; [|done].
    apply Z.geb_le in Hge. rewrite take_ge; [done|lia].
Qed.

Lemma Drop_present (l : list E) n : Drop (Some l) n = Some (drop (Z.to_nat n) l).
Proof.
  unfold Drop, len. simpl elems. rewrite !Clone_id.
  destruct (Z.leb_spec n 0) as [Hn|Hn].
  - by replace (Z.to_nat n) with 0%nat by lia.
  - destruct (n >=? Z.of_nat (length l)) eqn:Hge; [|done].
    apply Z.geb_le in Hge. rewrite drop_ge; [done|lia].
Qed.
End TakeDrop.

(** C9.  For every slice and every [n], negative, zero or past the end
    included, the elements of [Take] followed by those of [Drop] are the
    elements of the slice, and each result is nil exactly when the slice
    is. *)
Theorem Take_Drop_recompose {E : Type} (collection : Slice E) (n : Z) :
  elems (Take collection n) ++ elems (Drop collection n) = elems collection
  ∧ (Take collection n = None ↔ collection = None)
  ∧ (Drop collection n = None ↔ collection = None).
Proof.
  destruct collection as [l|]; [|done].
  rewrite Take_present, Drop_present. simpl. by rewrite take_drop.
Qed.

(** ** Map, Reduce and MapReduce *)

Section Fusion.
Context {E M R : Type}.
Implicit Types (l : list E) (mapper : E → nat → M) (reducer : R → M → nat → R).

(** The loop of [Map] with the first [length stored] results in place. *)
Lemma Map_loop (zero : M) mapper l : ∀ (stored : list M),
  range_from (λ result index item, <[index := mapper item index]> result)
             (length stored) l (stored ++ replicate (length l) zero)
  = stored ++ map_from mapper (length stored) l.
Proof.
  induction l as [|x rest IH]; intros stored; simpl; [done|].
  rewrite insert_app_r_alt, Nat.sub_diag; [|done]. simpl.
  rewrite (cons_middle _ stored), app_assoc.
  replace (S (length stored)) with (length (stored ++ [mapper x (length stored)]))
    by (rewrite length_app; simpl; lia).
  rewrite IH. by rewrite <- app_assoc.
Qed.

Lemma Map_present (zero : M) mapper l :
  Map zero (Some l) mapper = Some (map_from mapper 0 l).
Proof. unfold Map, range. f_equal. apply (Map_loop zero mapper l []). Qed.

Lemma length_map_from mapper l : ∀ i, length (map_from mapper i l) = length l.
Proof. induction l; intros i; simpl; [done|]. by rewrite IHl. Qed.

Lemma Reduce_map_from mapper reducer l : ∀ i (acc : R),
  range_from (λ result k mapped, reducer result mapped k) i (map_from mapper i l) acc
  = range_from (λ result k item, let mapped := mapper item k in
                                 reducer result mapped k) i l acc.
Proof. induction l as [|x rest IH]; intros i acc; simpl; [done|]. apply IH. Qed.
End Fusion.

(** C5.  [MapReduce] returns what [Reduce] returns on the output of [Map],
    for every slice, nil and empty included (where both give back the
    initial value), every mapper, initial value and reducer. *)
Theorem MapReduce_fuses {E M R : Type} (zero : M) (collection : Slice E)
    (mapper : E → nat → M) (initialValue : R) (reducer : R → M → nat → R) :
  MapReduce collection mapper initialValue reducer
  = Reduce (Map zero collection mapper) initialValue reducer
  ∧ MapReduce None mapper initialValue reducer = initialValue
  ∧ MapReduce (Some []) mapper initialValue reducer = initialValue.
Proof.
  split; [|done].
  destruct collection as [l|]; [|done].
  rewrite Map_present. unfold MapReduce, Reduce, range, len. simpl elems.
  rewrite length_map_from. destruct (Z.of_nat (length l) =? 0); [done|].
  symmetry. apply Reduce_map_from.
Qed.

(** ** First occurrences and Unique *)

Section FirstOccurrences.
Context `{Countable E}.
Implicit Types (l before : list E).

Lemma elem_of_keep_first l : ∀ before x,
  x ∈ keep_first before l ↔ x ∈ l ∧ x ∉ before.
Proof.
  induction l as [|y rest IH]; intros before x; simpl.
  - rewrite elem_of_nil. tauto.
  - rewrite elem_of_app, IH, elem_of_app, !elem_of_cons, elem_of_nil.
    destruct (decide (y ∈ before)) as [Hin|Hout];
      rewrite ?elem_of_cons, elem_of_nil;
      destruct (decide (x = y)) as [->|Hne]; tauto.
Qed.

Lemma NoDup_keep_first l : ∀ before, NoDup (keep_first before l).
Proof.
  induction l as [|y rest IH]; intros before; simpl; [constructor|].
  destruct (decide (y ∈ before)); simpl; [apply IH|].
  constructor; [|apply IH].
  rewrite elem_of_keep_first, elem_of_app, list_elem_of_singleton. tauto.
Qed.

Lemma keep_first_sublist l : ∀ before, keep_first before l `sublist_of` l.
Proof.
  induction l as [|y rest IH]; intros before; simpl; [done|].
  destruct (decide (y ∈ before)); simpl;
    [apply sublist_cons | apply sublist_skip]; apply IH.
Qed.

Lemma Unique_loop l : ∀ (seen : gset E) before (acc : Slice E),
  (∀ x, x ∈ seen ↔ x ∈ before) →
  (fold_left (λ '(seen, result) item,
                if decide (item ∈ seen) then (seen, result)
                else ({[item]} ∪ seen, append result item))
             l (seen, acc)).2
  = grown acc (keep_first before l).
Proof.
  induction l as [|y rest IH]; intros seen before acc Hseen; simpl; [done|].
  destruct (decide (y ∈ seen)) as [Hin|Hout].
  - rewrite decide_True by (by apply Hseen). simpl.
    apply IH. intros x. rewrite elem_of_app, list_elem_of_singleton, <- Hseen.
    split; [tauto|]. by intros [?| ->].
  - rewrite decide_False by (by rewrite <- Hseen).
    etrans; [|apply (grown_append acc y)].
    apply IH. intros x.
    rewrite elem_of_app, list_elem_of_singleton, <- Hseen.
    rewrite elem_of_union, elem_of_singleton. tauto.
Qed.

Lemma Unique_present l : Unique (Some l) = grown None (keep_first [] l).
Proof.
  unfold Unique. apply Unique_loop. intros x.
  rewrite elem_of_empty, elem_of_nil. tauto.
Qed.
End FirstOccurrences.

(** C6.  [Unique] of nil is nil, [Unique] of the present empty slice is nil
    as well, and on a populated slice it returns the first occurrence of
    every value, in the order of those first occurrences: no value twice,
    and the same values as the input. *)
Theorem Unique_first_occurrences `{Countable E} :
  Unique (None : Slice E) = None
  ∧ Unique (Some ([] : list E)) = None
  ∧ ∀ (x : E) (l : list E),
      Unique (Some (x :: l)) = Some (keep_first [] (x :: l))
      ∧ NoDup (keep_first [] (x :: l))
      ∧ keep_first [] (x :: l) `sublist_of` x :: l
      ∧ (∀ y, y ∈ keep_first [] (x :: l) ↔ y ∈ x :: l).
Proof.
  split_and!; try done. intros x l.
  rewrite Unique_present. split_and!.
  - done.
  - apply NoDup_keep_first.
  - apply keep_first_sublist.
  - intros y. rewrite elem_of_keep_first, elem_of_nil. tauto.
Qed.

(** ** Intersect *)

Section IntersectFacts.
Context `{Countable E}.
Implicit Types (l before : list E) (counts : gmap E Z) (seen : gmap E bool).

Lemma flag_of_insert seen x y :
  flag_of (<[x := true]> seen) y = if decide (x = y) then true else flag_of seen y.
Proof. unfold flag_of. rewrite lookup_insert. by destruct (decide (x = y)). Qed.

Lemma count_of_insert counts x y v :
  count_of (<[x := v]> counts) y = if decide (x = y) then v else count_of counts y.
Proof. unfold count_of. rewrite lookup_insert. by destruct (decide (x = y)). Qed.

(** One pass over a slice adds one to the counter of every value that
    occurs in it and has not been seen before in the same pass. *)
Lemma count_pass l : ∀ seen counts before x,
  (∀ y, flag_of seen y = true ↔ y ∈ before) →
  count_of
    (fold_left (λ '(seen, counts) item,
                  if negb (flag_of seen item)
                  then (<[item := true]> seen,
                        <[item := count_of counts item + 1]> counts)
                  else (seen, counts))
               l (seen, counts)).2 x
  = count_of counts x + (if bool_decide (x ∈ l ∧ x ∉ before) then 1 else 0).
Proof.
  induction l as [|y rest IH]; intros seen counts before x Hseen;
    cbn [fold_left snd].
  - rewrite bool_decide_eq_false_2; [lia|]. rewrite elem_of_nil. tauto.
  - destruct (flag_of seen y) eqn:Hy; cbn [negb].
    + apply Hseen in Hy.
      rewrite (IH seen counts (y :: before)).
      * f_equal. erewrite bool_decide_ext; [done|].
        rewrite !elem_of_cons. destruct (decide (x = y)) as [->|]; tauto.
      * intros z. rewrite Hseen, elem_of_cons.
        destruct (decide (z = y)) as [->|]; tauto.
    + assert (y ∉ before) as Hout.
      { rewrite <- Hseen. by rewrite Hy. }
      rewrite (IH _ _ (y :: before)).
      * rewrite count_of_insert.
        destruct (decide (y = x)) as [->|Hne].
        -- rewrite bool_decide_eq_false_2 by (rewrite elem_of_cons; tauto).
           rewrite bool_decide_eq_true_2 by (rewrite elem_of_cons; tauto).
           lia.
        -- f_equal. erewrite bool_decide_ext; [done|].
           rewrite !elem_of_cons. split; [tauto|].
           intros [[->|?] ?]; [done|]. split; [done|]. intros [?|?]; done.
      * intros z. rewrite flag_of_insert, elem_of_cons, <- Hseen.
        destruct (decide (y = z)) as [->|]; [tauto|].
        split; [tauto|]. intros [?|?]; [congruence|done].
Qed.

Lemma count_slice_spec counts (c : Slice E) x :
  count_of (count_slice counts c) x
  = count_of counts x + (if bool_decide (x ∈ elems c) then 1 else 0).
Proof.
  unfold count_slice. rewrite (count_pass _ _ _ []).
  - f_equal. erewrite bool_decide_ext; [done|]. rewrite elem_of_nil. tauto.
  - intros y. unfold flag_of. rewrite lookup_empty, elem_of_nil. simpl.
    split; [done|tauto].
Qed.

(** After all the passes the counter of a value is the number of slices
    it occurs in. *)
Lemma count_slices_spec (others : list (Slice E)) : ∀ counts x,
  count_of (fold_left count_slice others counts) x
  = count_of counts x
    + Z.of_nat (length (filter (λ o : Slice E, x ∈ elems o) others)).
Proof.
  induction others as [|o others IH]; intros counts x; simpl; [lia|].
  rewrite IH, count_slice_spec, filter_cons.
  destruct (decide (x ∈ elems o)) as [Hin|Hout].
  - rewrite bool_decide_eq_true_2 by done. simpl length. lia.
  - rewrite bool_decide_eq_false_2 by done. lia.
Qed.

Lemma filter_all {A} (P : A → Prop) `{∀ x, Decision (P x)} (l : list A) :
  length (filter P l) = length l ↔ Forall P l.
Proof.
  induction l as [|a l IH]; simpl; [by split; [constructor|]|].
  rewrite filter_cons, Forall_cons. destruct (decide (P a)) as [Ha|Hna]; simpl.
  - rewrite <- IH. split; [intros; split; [done|lia] | intros [_ ?]; lia].
  - pose proof (length_filter P l). split; [lia | tauto].
Qed.

(** A value reaches the count of the other slices exactly when it occurs
    in every one of them. *)
Lemma count_reached (others : list (Slice E)) x :
  count_of (fold_left count_slice others ∅) x = Z.of_nat (length others)
  ↔ Forall (λ o : Slice E, x ∈ elems o) others.
Proof.
  rewrite count_slices_spec. unfold count_of at 1. rewrite lookup_empty. simpl.
  rewrite <- (filter_all (λ o : Slice E, x ∈ elems o)). split; lia.
Qed.

(** The loop over the first slice, for any test [ok] on values. *)
Lemma Intersect_loop (ok : E → bool) l : ∀ seen before (acc : Slice E),
  (∀ y, flag_of seen y = true ↔ y ∈ before ∧ ok y = true) →
  (fold_left (λ '(result, seen) item,
                if negb (flag_of seen item) && ok item
                then (append result item, <[item := true]> seen)
                else (result, seen))
             l (acc, seen)).1
  = grown acc (filter (λ x, ok x = true) (keep_first before l)).
Proof.
  induction l as [|y rest IH]; intros seen before acc Hseen; simpl; [done|].
  rewrite filter_app.
  destruct (decide (y ∈ before)) as [Hin|Hout].
  - assert (negb (flag_of seen y) && ok y = false) as ->.
    { destruct (ok y) eqn:Hok; [|by rewrite andb_false_r].
      rewrite (proj2 (Hseen y)); done. }
    rewrite filter_nil. simpl app. apply IH.
    intros z. rewrite Hseen, elem_of_app, list_elem_of_singleton.
    destruct (decide (z = y)) as [->|]; tauto.
  - assert (flag_of seen y = false) as ->.
    { destruct (flag_of seen y) eqn:Hy; [|done]. apply Hseen in Hy. tauto. }
    simpl negb. rewrite andb_true_l. destruct (ok y) eqn:Hok.
    + rewrite filter_cons_True, filter_nil by done.
      etrans; [|apply (grown_append acc y)].
      apply IH. intros z.
      rewrite flag_of_insert, elem_of_app, list_elem_of_singleton.
      destruct (decide (y = z)) as [->|Hne]; [tauto|].
      rewrite Hseen. split; [tauto|]. intros [[?|?] ?]; [done|congruence].
    + rewrite filter_cons_False, filter_nil by congruence. simpl app.
      apply IH. intros z.
      rewrite Hseen, elem_of_app, list_elem_of_singleton.
      split; [tauto|]. intros [[?|?] ?]; [done|congruence].
Qed.

(** What [Intersect] computes on two or more slices. *)
Lemma Intersect_several (first second : Slice E) (rest : list (Slice E)) :
  let common :=
    filter (λ x, Forall (λ o : Slice E, x ∈ elems o) (second :: rest))
           (keep_first [] (elems first)) in
  Intersect (first :: second :: rest)
  = match common, elems first with
    | [], [] => None
    | _, _ => Some common
    end.
Proof.
  intros common. unfold Intersect.
  set (others := second :: rest).
  set (counts := fold_left count_slice others ∅).
  set (n := Z.of_nat (length (first :: others)) - 1).
  pose (ok := λ item : E, count_of counts item =? n).
  assert (∀ x, ok x = true ↔ Forall (λ o : Slice E, x ∈ elems o) others) as Hok.
  { intros x. unfold ok. rewrite Z.eqb_eq, <- count_reached.
    unfold n, counts. simpl length. split; lia. }
  pose proof (Intersect_loop ok (elems first) ∅ [] None) as Hloop.
  change (λ '(result, seen) item,
            if negb (flag_of seen item) && ok item
            then (append result item, <[item := true]> seen)
            else (result, seen))
    with (λ '(result, seen) item,
            if negb (flag_of seen item) && (count_of counts item =? n)
            then (append (E := E) result item, <[item := true]> seen)
            else (result, seen)) in Hloop.
  destruct (fold_left _ (elems first) (None, ∅)) as [result seen'].
  simpl in Hloop. rewrite Hloop.
  2:{ intros y. unfold flag_of. rewrite lookup_empty, elem_of_nil. simpl.
      split; [done|tauto]. }
  rewrite (list_filter_iff _ (λ x, Forall (λ o : Slice E, x ∈ elems o) others))
    by apply Hok.
  change (filter _ (keep_first [] (elems first))) with common.
  rewrite len_zero, len_pos, elems_grown. simpl app.
  clearbody common. destruct common as [|c cs]; simpl; [|done].
  by destruct (elems first).
Qed.
End IntersectFacts.

(** C7.  [Intersect] of no slice is nil.  [Intersect] of one slice is that
    slice itself: the header that came in is handed back and nothing is
    allocated.  For two or more slices the result holds the values of the
    first slice that occur in every other slice, each once, at the place of
    its first occurrence in the first slice; and when the first slice is
    populated the result is not nil, so without a common value it is the
    empty slice. *)
Theorem Intersect_common `{Countable E} :
  Intersect ([] : list (Slice E)) = None
  ∧ (∀ only : Slice E, Intersect [only] = only)
  ∧ (∀ (zero : E) (grow : nat → nat) (only : Mem.slice) (h : Mem.store E),
       Mem.Intersect zero grow [only] h = (only, h))
  ∧ (∀ (first second : Slice E) (rest : list (Slice E)),
       let result := Intersect (first :: second :: rest) in
       let in_all_others x := Forall (λ o : Slice E, x ∈ elems o) (second :: rest) in
       elems result = filter in_all_others (keep_first [] (elems first))
       ∧ NoDup (elems result)
       ∧ (∀ x, x ∈ elems result ↔ x ∈ elems first ∧ in_all_others x)
       ∧ (elems first ≠ [] → is_Some result)
       ∧ (elems first ≠ [] → elems result = [] → result = Some [])).
Proof.
  split_and!; try done.
  intros first second rest result in_all_others.
  assert (elems result = filter in_all_others (keep_first [] (elems first))) as Hres.
  { unfold result. rewrite Intersect_several.
    fold in_all_others.
    destruct (filter in_all_others _), (elems first); done. }
  assert (elems first ≠ [] → is_Some result) as Hsome.
  { intros Hne. unfold result. rewrite Intersect_several.
    destruct (filter _ _), (elems first); done || eauto. }
  split_and!; try done.
  - rewrite Hres. apply NoDup_filter, NoDup_keep_first.
  - intros x. rewrite Hres, list_elem_of_filter, elem_of_keep_first.
    rewrite elem_of_nil. tauto.
  - intros Hne Hnil. destruct (Hsome Hne) as [r Hr].
    rewrite Hr in Hnil |- *. simpl in Hnil. by subst r.
Qed.

(** ** Difference *)

Section DifferenceFacts.
Context `{Countable E}.

Lemma exclude_items (l : list E) : ∀ (exclude : gset E) x,
  x ∈ fold_left (λ exclude item, {[item]} ∪ exclude) l exclude
  ↔ x ∈ l ∨ x ∈ exclude.
Proof.
  induction l as [|y rest IH]; intros exclude x; simpl.
  - rewrite elem_of_nil. tauto.
  - rewrite IH, elem_of_cons, elem_of_union, elem_of_singleton. tauto.
Qed.

Lemma exclude_slices (others : list (Slice E)) : ∀ (exclude : gset E) x,
  x ∈ fold_left (λ exclude other,
                   fold_left (λ exclude item, {[item]} ∪ exclude)
                             (elems other) exclude)
                others exclude
  ↔ Exists (λ o : Slice E, x ∈ elems o) others ∨ x ∈ exclude.
Proof.
  induction others as [|o others IH]; intros exclude x; simpl.
  - rewrite Exists_nil. tauto.
  - rewrite IH, exclude_items, Exists_cons. tauto.
Qed.

Lemma Difference_loop (exclude : gset E) (l : list E) : ∀ acc : Slice E,
  fold_left (λ result item,
               if decide (item ∈ exclude) then result else append result item)
            l acc
  = grown acc (filter (λ x, x ∉ exclude) l).
Proof.
  induction l as [|y rest IH]; intros acc; simpl; [done|].
  rewrite IH, filter_cons. destruct (decide (y ∈ exclude)) as [Hin|Hout].
  - by rewrite decide_False by tauto.
  - rewrite decide_True by done. apply grown_append.
Qed.

(** What [Difference] computes on a present first slice. *)
Lemma Difference_present (l : list E) (others : list (Slice E)) :
  Difference (Some l) others
  = grown None (filter (λ x, ¬ Exists (λ o : Slice E, x ∈ elems o) others) l).
Proof.
  unfold Difference. rewrite Difference_loop. f_equal.
  apply list_filter_iff. intros x.
  rewrite exclude_slices, elem_of_empty. tauto.
Qed.
End DifferenceFacts.

(** C10.  When every element of a present first slice occurs in one of the
    other slices, the first slice being empty included, [Difference]
    returns nil and not the empty slice.  [Intersect] and [Partition] differ
    on a populated input: a result without elements is the empty slice
    there. *)
Theorem Difference_all_excluded `{Countable E}
    (l : list E) (others : list (Slice E)) :
  Forall (λ x, Exists (λ o : Slice E, x ∈ elems o) others) l →
  Difference (Some l) others = None
  ∧ (∀ second more,
       l ≠ [] → elems (Intersect (Some l :: second :: more)) = [] →
       Intersect (Some l :: second :: more) = Some [])
  ∧ (∀ p, l ≠ [] → select_from p 0 l = [] → (Partition (Some l) p).1 = Some []).
Proof.
  intros Hall. split_and!.
  - rewrite Difference_present. apply grown_nil.
    induction Hall as [|x l Hx Hall IH]; [done|].
    by rewrite filter_cons_False by tauto.
  - intros second more Hne. rewrite Intersect_several. simpl elems.
    destruct (filter _ _), l; done.
  - intros p Hne Hnil. unfold Partition, range. rewrite Partition_loop, Hnil.
    simpl. by destruct l.
Qed.

Lemma Difference_all_excluded_witness :
  Difference (Some [1; 2; 1]) [Some [2; 3]; None; Some [1]] = None.
Proof.
  apply (Difference_all_excluded [1; 2; 1] [Some [2; 3]; None; Some [1]]).
  apply (bool_decide_unpack _). vm_compute. exact I.
Defined.

(** ** Shuffle *)

Section Bytes.
(** Inside the range of [int] the conversion changes nothing. *)
Lemma to_int_small z : - 2 ^ 63 ≤ z < 2 ^ 63 → to_int z = z.
Proof.
  intros Hz. unfold to_int, int_bits.
  change (2 ^ (64 - 1)) with (2 ^ 63). change (2 ^ 64) with (2 * 2 ^ 63).
  rewrite Z.mod_small by lia. lia.
Qed.

Lemma byte_val_range b : 0 ≤ byte_val b < 256.
Proof.
  unfold byte_val. pose proof (Byte.to_N_bounded b). lia.
Qed.

(** Or-ing a number below [2^k] with one shifted left by [k] adds them. *)
Lemma lor_shiftl_add a b k :
  0 ≤ k → 0 ≤ a < 2 ^ k → Z.lor a (Z.shiftl b k) = a + b * 2 ^ k.
Proof.
  intros Hk Ha.
  assert (Z.land a (Z.shiftl b k) = 0) as Hland.
  { apply Z.bits_inj'. intros n Hn. rewrite Z.land_spec, Z.bits_0.
    destruct (Z.lt_ge_cases n k) as [Hlt|Hge].
    - rewrite Z.shiftl_spec_low by done. apply andb_false_r.
    - rewrite <- (Z.mod_small a (2 ^ k)) by done.
      rewrite Z.mod_pow2_bits_high by lia. done. }
  rewrite <- Z.lxor_lor by done.
  rewrite <- Z.add_nocarry_lxor by done.
  by rewrite Z.shiftl_mul_pow2.
Qed.

Lemma big_endian_snoc bs b :
  big_endian (bs ++ [b]) = 256 * big_endian bs + byte_val b.
Proof. unfold big_endian. by rewrite fold_left_app. Qed.

Lemma big_endian_range bs : 0 ≤ big_endian bs < 256 ^ Z.of_nat (length bs).
Proof.
  induction bs as [|b bs IH] using rev_ind; [done|].
  rewrite big_endian_snoc, length_app. simpl length.
  pose proof (byte_val_range b).
  replace (Z.of_nat (length bs + 1)) with (Z.succ (Z.of_nat (length bs))) by lia.
  rewrite Z.pow_succ_r by lia. lia.
Qed.

Lemma Uint16_big_endian b0 b1 : Uint16 [b0; b1] = Some (big_endian [b0; b1]).
Proof.
  unfold Uint16, big_endian. simpl. f_equal.
  pose proof (byte_val_range b1).
  rewrite (lor_shiftl_add _ _ 8) by lia. lia.
Qed.

Lemma Uint32_big_endian b0 b1 b2 b3 :
  Uint32 [b0; b1; b2; b3] = Some (big_endian [b0; b1; b2; b3]).
Proof.
  unfold Uint32, big_endian. simpl. f_equal.
  pose proof (byte_val_range b0). pose proof (byte_val_range b1).
  pose proof (byte_val_range b2). pose proof (byte_val_range b3).
  rewrite (lor_shiftl_add (byte_val b3) _ 8) by lia.
  rewrite (lor_shiftl_add _ _ 16) by lia.
  rewrite (lor_shiftl_add _ _ 24) by lia. lia.
Qed.

Lemma length_filled n bs : length (filled n bs) = n.
Proof.
  unfold filled. rewrite length_take, length_app, length_replicate. lia.
Qed.

Lemma maxBytes_for_width i : maxBytes_for i = spec_width i.
Proof.
  unfold maxBytes_for, spec_width.
  destruct (Z.gtb_spec i 255), (Z.gtb_spec i 65535);
    repeat case_decide; done || lia.
Qed.

(** The number drawn at index [i] from a buffer of the requested size. *)
Lemma randomInt_of_width i (buffer : list Byte.byte) :
  0 ≤ i → length buffer = spec_width i →
  randomInt_of (spec_width i) buffer i = Some (big_endian buffer `mod` (i + 1)).
Proof.
  intros Hi Hlen. pose proof (big_endian_range buffer) as [Hnonneg Hbound].
  assert (256 ^ Z.of_nat (length buffer) ≤ 2 ^ 32) as Hsize.
  { rewrite Hlen. unfold spec_width. by repeat case_decide. }
  assert (2 ^ 32 < 2 ^ 63) as Hint by done.
  rewrite <- Z.rem_mod_nonneg by lia.
  rewrite <- (to_int_small (big_endian buffer)) by lia.
  unfold spec_width in *. repeat case_decide.
  - by destruct buffer as [|b0 [|]].
  - destruct buffer as [|b0 [|b1 [|]]]; try done.
    unfold randomInt_of. by rewrite Uint16_big_endian.
  - destruct buffer as [|b0 [|b1 [|b2 [|b3 [|]]]]]; try done.
    unfold randomInt_of. by rewrite Uint32_big_endian.
Qed.
End Bytes.

Section ShuffleFacts.
Context {E : Type}.
Variable source : nat → nat → option (list Byte.byte).
Implicit Types (l : list E) (w : world).

Lemma length_exchange l i j : length (exchange l i j) = length l.
Proof.
  unfold exchange. destruct (l !! i), (l !! j); try done.
  by rewrite !length_insert.
Qed.

(** Within bounds the tuple assignment does not panic and exchanges the
    two positions. *)
Lemma swap_exchange l (i j : Z) :
  0 ≤ j ≤ i → i < Z.of_nat (length l) →
  swap l i j = Some (exchange l (Z.to_nat i) (Z.to_nat j)).
Proof.
  intros Hj Hi. unfold swap, exchange.
  destruct (Z.ltb_spec i 0), (Z.ltb_spec j 0); try lia. simpl.
  destruct (lookup_lt_is_Some_2 l (Z.to_nat i)) as [a Ha]; [lia|].
  destruct (lookup_lt_is_Some_2 l (Z.to_nat j)) as [b Hb]; [lia|].
  rewrite Ha, Hb. simpl. f_equal.
  destruct (decide (Z.to_nat i = Z.to_nat j)) as [Heq|Hne].
  - rewrite Heq in *. congruence.
  - by apply list_insert_insert_ne.
Qed.

(** One turn of the loop at index [i] when the source delivers [bs]. *)
Lemma shuffle_turn i l w bs :
  (S i < length l)%nat →
  source (length w) (spec_width (Z.of_nat (S i))) = Some bs →
  let n := spec_width (Z.of_nat (S i)) in
  let j := big_endian (filled n bs) `mod` (Z.of_nat (S i) + 1) in
  shuffle_loop source (S i) l w
  = shuffle_loop source i (exchange l (S i) (Z.to_nat j)) (w ++ [n]).
Proof.
  intros Hi Hsrc n j. cbn [shuffle_loop].
  rewrite maxBytes_for_width. unfold readRandom. rewrite Hsrc.
  cbn [fmap option_fmap option_map].
  rewrite randomInt_of_width by (rewrite ?length_filled; lia).
  fold n. fold j. cbn [mbind option_bind].
  assert (0 ≤ j < Z.of_nat (S i) + 1) as Hj by (apply Z.mod_pos_bound; lia).
  rewrite swap_exchange by lia.
  by rewrite Nat2Z.id.
Qed.

(** One turn of the loop when the source reports an error: the loop is
    left with [result] as it stands. *)
Lemma shuffle_turn_error i l w :
  source (length w) (spec_width (Z.of_nat (S i))) = None →
  shuffle_loop source (S i) l w
  = (Some l, w ++ [spec_width (Z.of_nat (S i))]).
Proof.
  intros Hsrc. cbn [shuffle_loop].
  rewrite maxBytes_for_width. unfold readRandom. by rewrite Hsrc.
Qed.

Lemma shuffle_loop_fisher_yates (drawn : nat → list Byte.byte) : ∀ i l w k,
  (i < length l)%nat →
  (∀ d, (d < i)%nat →
     source (length w + d) (spec_width (Z.of_nat (i - d))) = Some (drawn (k + d)%nat)) →
  shuffle_loop source i l w
  = (Some (fisher_yates drawn i k l), w ++ spec_requests i).
Proof.
  induction i as [|i IH]; intros l w k Hi Hsrc.
  - simpl. by rewrite app_nil_r.
  - rewrite (shuffle_turn i l w (drawn k)); [|done|].
    2:{ specialize (Hsrc 0%nat). rewrite !Nat.add_0_r, Nat.sub_0_r in Hsrc.
        apply Hsrc. lia. }
    cbv zeta. rewrite (IH _ _ (S k)).
    + cbn [fisher_yates spec_requests]. by rewrite <- app_assoc.
    + rewrite length_exchange. lia.
    + intros d Hd. rewrite length_app. simpl length.
      specialize (Hsrc (S d)).
      replace (length w + 1 + d)%nat with (length w + S d)%nat by lia.
      replace (S k + d)%nat with (k + S d)%nat by lia.
      apply Hsrc. lia.
Qed.

(** Whatever the source does, the loop does not panic and keeps the
    length. *)
Lemma shuffle_loop_safe : ∀ i l w,
  (i < length l)%nat →
  ∃ r, (shuffle_loop source i l w).1 = Some r ∧ length r = length l.
Proof.
  induction i as [|i IH]; intros l w Hi; [by exists l|].
  destruct (source (length w) (spec_width (Z.of_nat (S i)))) as [bs|] eqn:Hsrc.
  - rewrite (shuffle_turn i l w bs) by done. cbv zeta.
    edestruct IH as [r [Hr Hlen]]; [|exists r; split; [apply Hr|]].
    + rewrite length_exchange. lia.
    + by rewrite Hlen, length_exchange.
  - rewrite shuffle_turn_error by done. by exists l.
Qed.

Lemma Shuffle_never_panics (collection : Slice E) w :
  is_Some (Shuffle source collection w).1.
Proof.
  destruct collection as [l|]; [|by eexists].
  unfold Shuffle, len. simpl elems.
  destruct (Z.leb_spec (Z.of_nat (length l)) 1); [by eexists|].
  destruct (shuffle_loop_safe (Z.to_nat (Z.of_nat (length l) - 1)) l w)
    as [r [Hr _]]; [lia|].
  destruct (shuffle_loop _ _ _ _) as [out w']. simpl in *. rewrite Hr. by eexists.
Qed.
End ShuffleFacts.

(** C4.  On an input of more than one element, with an entropy source that
    answers every request, [Shuffle] is the Fisher–Yates pass from index
    [length - 1] down to 1: at index [i] it asks for one buffer of 1 byte
    when [i ≤ 255], of 2 bytes when [i ≤ 65535] and of 4 bytes otherwise,
    reads the buffer as a big-endian number, reduces it modulo [i + 1] to
    [j] and exchanges positions [i] and [j]; the buffers are asked for in
    that order and no other request is made. *)
Theorem Shuffle_fisher_yates {E : Type}
    (source : nat → nat → option (list Byte.byte))
    (drawn : nat → list Byte.byte) (l : list E) (w : world) :
  (1 < length l)%nat →
  (∀ k, (k < length l - 1)%nat →
     source (length w + k)%nat (spec_width (Z.of_nat (length l - 1 - k)))
     = Some (drawn k)) →
  Shuffle source (Some l) w
  = (Some (Some (fisher_yates drawn (length l - 1) 0 l)),
     w ++ spec_requests (length l - 1)).
Proof.
  intros Hlen Hsrc. unfold Shuffle, len. simpl elems.
  destruct (Z.leb_spec (Z.of_nat (length l)) 1); [lia|].
  replace (Z.to_nat (Z.of_nat (length l) - 1)) with (length l - 1)%nat by lia.
  rewrite (shuffle_loop_fisher_yates source drawn _ l w 0%nat); [done|lia|].
  intros d Hd. by apply Hsrc.
Qed.

Lemma Shuffle_fisher_yates_witness :
  Shuffle (λ _ _, Some [Byte.x07]) (Some [10; 20; 30]) []
  = (Some (Some [10; 30; 20]), [1; 1]%nat).
Proof.
  apply (Shuffle_fisher_yates (λ _ _, Some [Byte.x07]) (λ _, [Byte.x07])
           [10; 20; 30] []).
  - simpl. lia.
  - intros k Hk. reflexivity.
Defined.

(** X19.  An error on the very first request leaves the clone as it was
    made, and no further request follows; this is the case the package's
    test exercises. *)
Lemma Shuffle_error_at_first_request {E : Type}
    (source : nat → nat → option (list Byte.byte)) (l : list E) (w : world) :
  (1 < length l)%nat →
  source (length w) (spec_width (Z.of_nat (length l - 1))) = None →
  Shuffle source (Some l) w
  = (Some (Some l), w ++ [spec_width (Z.of_nat (length l - 1))]).
Proof.
  intros Hlen Hsrc. unfold Shuffle, len. simpl elems.
  destruct (Z.leb_spec (Z.of_nat (length l)) 1); [lia|].
  replace (Z.to_nat (Z.of_nat (length l) - 1)) with (length l - 1)%nat by lia.
  destruct (length l - 1)%nat as [|i] eqn:Hi; [lia|].
  by rewrite shuffle_turn_error.
Qed.

(** C2 fails on the code.  The source answers the first request with the
    byte 0 and reports an error on the second: [Shuffle] of [1; 2; 3] has
    by then exchanged positions 2 and 0 and returns [3; 2; 1], not the
    input order. *)
Theorem Shuffle_error_after_first_swap :
  let source := λ (k n : nat), match k with O => Some [Byte.x00] | _ => None end in
  Shuffle source (Some [1; 2; 3]) [] = (Some (Some [3; 2; 1]), [1; 1]%nat)
  ∧ (Shuffle source (Some [1; 2; 3]) []).1 ≠ Some (Clone (Some [1; 2; 3])).
Proof. by split. Qed.

(** ** Sharing between inputs and results *)

Section Sharing.
Import Mem.

Lemma chunk_loop_S fuel collection length size i chunks :
  chunk_loop (S fuel) collection length size i chunks
  = if i <? length then
      let end_ := to_int (i + size) in
      let end_ := if end_ >? length then length else end_ in
      group ← subslice collection i end_;
      chunk_loop fuel collection length size (to_int (i + size))
                 (chunks ++ [group])
    else Some chunks.
Proof. done. Qed.

Lemma subslice_Some s i j g :
  subslice s i j = Some g → 0 ≤ i ∧ base g = base s.
Proof.
  unfold subslice. case_decide; [|done]. intros [= <-]. simpl.
  split; [lia|done].
Qed.

(** A sum of two values of type [int], the first of them not negative,
    either is in range or wraps around to a negative number. *)
Lemma to_int_sum i size :
  0 ≤ i < 2 ^ 63 → 0 ≤ size < 2 ^ 63 →
  to_int (i + size) = i + size ∨ to_int (i + size) < 0.
Proof.
  intros Hi Hsize. destruct (Z.lt_ge_cases (i + size) (2 ^ 63)) as [Hlt|Hge].
  - left. apply to_int_small. lia.
  - right. unfold to_int, int_bits.
    change (2 ^ (64 - 1)) with (2 ^ 63). change (2 ^ 64) with (2 * 2 ^ 63).
    replace (i + size + 2 ^ 63) with (i + size - 2 ^ 63 + 1 * (2 * 2 ^ 63)) by lia.
    rewrite Z.mod_add by lia. rewrite Z.mod_small by lia. lia.
Qed.

(** The bound on the iterations of the loop of [Chunk] is never what ends
    it: once the bound exceeds the distance of [i] to [length], one more
    iteration allowed changes nothing.  A sum that wraps around makes the
    next slice expression panic. *)
Lemma chunk_loop_fuel collection length size :
  1 ≤ size < 2 ^ 63 → length < 2 ^ 63 →
  ∀ fuel i chunks,
    (0 ≤ i ∧ length - i < Z.of_nat fuel) ∨ length ≤ i ∨ (i < 0 ∧ (1 ≤ fuel)%nat) →
    chunk_loop (S fuel) collection length size i chunks
    = chunk_loop fuel collection length size i chunks.
Proof.
  intros Hsize Hlength. induction fuel as [|fuel IH]; intros i chunks Hfuel.
  - simpl. destruct (Z.ltb_spec i length); [lia|done].
  - rewrite (chunk_loop_S (S fuel)), (chunk_loop_S fuel).
    destruct (Z.ltb_spec i length) as [Hlt|]; [|done]. cbv zeta.
    destruct (subslice _ _ _) as [group|] eqn:Hsub; [|done].
    apply subslice_Some in Hsub as [Hi _].
    cbn [mbind option_bind]. apply IH.
    destruct (to_int_sum i size) as [->|Hwrap]; lia.
Qed.

Lemma chunk_loop_more_fuel collection (n : nat) size chunks (k : nat) :
  1 ≤ size < 2 ^ 63 → Z.of_nat n < 2 ^ 63 →
  chunk_loop (S n + k) collection (Z.of_nat n) size 0 chunks
  = chunk_loop (S n) collection (Z.of_nat n) size 0 chunks.
Proof.
  intros Hsize Hlength. induction k as [|k IH].
  - by rewrite Nat.add_0_r.
  - rewrite Nat.add_succ_r, <- IH. apply chunk_loop_fuel; lia.
Qed.

(** Every group [Chunk] returns is a window on the backing array of its
    input. *)
Lemma chunk_loop_share_base collection length size : ∀ fuel i chunks groups,
  Forall (λ g, base g = base collection) chunks →
  chunk_loop fuel collection length size i chunks = Some groups →
  Forall (λ g, base g = base collection) groups.
Proof.
  induction fuel as [|fuel IH]; intros i chunks groups Hchunks; simpl.
  - by intros [= <-].
  - destruct (i <? length); [|by intros [= <-]].
    destruct (subslice _ _ _) as [group|] eqn:Hsub; [|done]. simpl.
    apply IH. apply Forall_app. split; [done|].
    apply subslice_Some in Hsub as [_ Hbase]. by repeat constructor.
Qed.

Lemma Chunk_share_base collection size groups :
  Chunk collection size = Some (Some groups) →
  Forall (λ g, base g = base collection) groups.
Proof.
  unfold Chunk. destruct (is_nil collection || (size <? 1)); [done|].
  destruct (Z.of_nat (len collection) =? 0); [by intros [= <-]|].
  cbv zeta. destruct (_ <? 0); [done|].
  destruct (chunk_loop _ _ _ _ _ _) as [gs|] eqn:Hloop; [|done].
  intros [= <-]. by eapply chunk_loop_share_base.
Qed.

(** [slices.Clone] of a populated slice, in contrast, lives in an array
    of its own and leaves the store as it was. *)
Lemma Clone_fresh {E : Type} (zero : E) (grow : nat → nat) s (h : store E) :
  (0 < len s)%nat → length (elems (view h s)) = len s →
  ∃ a c, Clone zero grow s h = (Header (Some (length h)) 0 (len s) c, h ++ [a])
         ∧ take (len s) a = elems (view h s).
Proof.
  intros Hpos Hlen. unfold Clone, append_all. simpl. rewrite Hlen.
  rewrite decide_False by lia. eexists _, _. split; [reflexivity|].
  assert (elems (view h (Header (base s) (off s) 0 0)) = []) as ->.
  { unfold view. by destruct (base s). }
  by rewrite app_nil_l, take_app_length' by done.
Qed.
End Sharing.

(** C3 fails on the code.  [Chunk] of [1; 2; 3; 4; 5] by 2 returns three
    groups that are windows on the backing array of the input, not copies:
    storing 99 at index 0 of the first group changes index 0 of the input,
    and appending to the first group overwrites index 2 of the input.
    [Take] of the same input, which clones its window, returns a slice on
    an array of its own. *)
Theorem Chunk_groups_alias_input :
  let h : Mem.store Z := [[1; 2; 3; 4; 5]] in
  let input := Mem.Header (Some 0%nat) 0 5 5 in
  let g0 := Mem.Header (Some 0%nat) 0 2 5 in
  let g1 := Mem.Header (Some 0%nat) 2 2 3 in
  let g2 := Mem.Header (Some 0%nat) 4 1 1 in
  Mem.view h input = Some [1; 2; 3; 4; 5]
  ∧ Mem.Chunk input 2 = Some (Some [g0; g1; g2])
  ∧ Mem.view h <$> [g0; g1; g2] = [Some [1; 2]; Some [3; 4]; Some [5]]
  ∧ (λ h', Mem.view h' input) <$> Mem.store_at g0 0 99 h
    = Some (Some [99; 2; 3; 4; 5])
  ∧ Mem.view (Mem.append 0 id g0 77 h).2 input = Some [1; 2; 77; 4; 5]
  ∧ Mem.Take 0 id input 2 h
    = Some (Mem.Header (Some 1%nat) 0 2 2, [[1; 2; 3; 4; 5]; [1; 2]]).
Proof. by split_and!. Qed.

(** The capacity computed for the outer slice wraps around when [size] is
    close to the largest [int]; [make] then panics. *)
Example Chunk_huge_size_panics :
  Mem.Chunk (Mem.Header (Some 0%nat) 0 5 5) (2 ^ 63 - 3) = None.
Proof. done. Qed.

(** ** The memory view agrees with the value view *)

Section Agreement.
Import Mem.
Context {E : Type}.
Variable zero : E.
Variable grow : nat → nat.
Implicit Types (h : store E) (s : slice).

Lemma array_insert h b a : (b < length h)%nat → array (<[b := a]> h) b = a.
Proof. intros Hb. unfold array. by rewrite list_lookup_insert_eq. Qed.

Lemma array_alloc h a : array (h ++ [a]) (length h) = a.
Proof. unfold array. by rewrite list_lookup_middle. Qed.

Lemma length_view h s : valid h s → length (elems (view h s)) = len s.
Proof.
  unfold valid, view. destruct (base s) as [b|]; simpl.
  - intros (Hb & Hlen & Hcap). rewrite length_take, length_drop. lia.
  - by intros [-> _].
Qed.

(** [append] extends what the slice shows by the new element and never
    writes into an array below [floor], provided the slice itself does
    not live there. *)
Lemma append_view h s x (floor : nat) :
  valid h s →
  (floor ≤ length h)%nat →
  (∀ b, base s = Some b → (floor ≤ b)%nat) →
  let s' := (append zero grow s x h).1 in
  let h' := (append zero grow s x h).2 in
  view h' s' = Some (elems (view h s) ++ [x])
  ∧ valid h' s'
  ∧ (floor ≤ length h')%nat
  ∧ (∀ b, base s' = Some b → (floor ≤ b)%nat)
  ∧ take floor h' = take floor h.
Proof.
  intros Hvalid Hfloor Hbase. pose proof (length_view h s Hvalid) as Hlen.
  unfold append, append_all. simpl length.
  destruct (decide (len s + 1 ≤ cap s)%nat) as [Hroom|Hfull].
  - unfold valid in Hvalid. destruct (base s) as [b|] eqn:Hb; [|lia].
    destruct Hvalid as (Hbh & Hlc & Hoc). simpl.
    set (a := array h b) in *.
    set (a' := take (off s + len s) a ++ [x] ++ drop (off s + (len s + 1)) a).
    assert (length a' = length a) as Hla.
    { unfold a'. rewrite !length_app, length_take, length_drop. simpl. lia. }
    split_and!.
    + unfold view. simpl. rewrite array_insert by done.
      f_equal. fold a. fold a'. unfold a'.
      rewrite drop_app_le by (rewrite length_take; lia).
      rewrite (cons_middle x), app_assoc, take_app_length'.
      * f_equal. rewrite Hb. simpl. fold a. by rewrite take_drop_commute.
      * rewrite length_app, length_drop, length_take. simpl. lia.
    + unfold valid. simpl.
      rewrite length_insert, array_insert by done.
      change (take _ a ++ x :: drop _ a) with a'. lia.
    + by rewrite length_insert.
    + intros b' Hb'. simpl in Hb'. by apply Hbase.
    + apply take_insert_ge. by apply Hbase.
  - simpl. split_and!.
    + unfold view at 1. simpl. rewrite array_alloc. simpl. f_equal.
      rewrite drop_0, (cons_middle x), app_assoc. apply take_app_length'.
      rewrite length_app. simpl. lia.
    + unfold valid. simpl. rewrite array_alloc, !length_app. simpl.
      rewrite length_replicate. lia.
    + rewrite length_app. lia.
    + intros b [= <-]. done.
    + by rewrite take_app_le.
Qed.
End Agreement.

Section IntersectAgreement.
Context `{Countable E}.
Variable zero : E.
Variable grow : nat → nat.
Implicit Types (h : Mem.store E) (s : Mem.slice) (seen : gmap E bool).

Lemma valid_nil h : Mem.valid h Mem.nil.
Proof. done. Qed.

Lemma count_slices_view h (others : list Mem.slice) : ∀ counts : gmap E Z,
  fold_left (λ counts other, count_slice counts (Mem.view h other)) others counts
  = fold_left count_slice (Mem.view h <$> others) counts.
Proof. induction others as [|o others IH]; intros counts; simpl; [done|apply IH]. Qed.

(** The loop over the first slice, run on the store, builds a slice that
    shows what the loop on values builds, and leaves alone every array
    that was there before. *)
Lemma Intersect_loop_agree (ok : E → bool) (floor : nat) (l : list E) :
  ∀ s seen h,
  Mem.valid h s → (floor ≤ length h)%nat →
  (∀ b, Mem.base s = Some b → (floor ≤ b)%nat) →
  let on_values :=
    fold_left (λ '(result, seen) item,
                 if negb (flag_of seen item) && ok item
                 then (append result item, <[item := true]> seen)
                 else (result, seen))
              l (Mem.view h s, seen) in
  ∃ s' h',
    fold_left (λ '(result, seen, h) item,
                 if negb (flag_of seen item) && ok item
                 then
                   let '(result', h') := Mem.append zero grow result item h in
                   (result', <[item := true]> seen, h')
                 else (result, seen, h))
              l (s, seen, h)
    = (s', on_values.2, h')
    ∧ Mem.view h' s' = on_values.1
    ∧ Mem.valid h' s'
    ∧ (floor ≤ length h')%nat
    ∧ take floor h' = take floor h.
Proof.
  induction l as [|y rest IH]; intros s seen h Hvalid Hfloor Hbase; simpl.
  - by exists s, h.
  - destruct (negb (flag_of seen y) && ok y).
    + pose proof (append_view zero grow h s y floor Hvalid Hfloor Hbase)
        as (Hview & Hvalid' & Hfloor' & Hbase' & Htake).
      destruct (Mem.append zero grow s y h) as [s1 h1]. simpl in *.
      destruct (IH s1 (<[y := true]> seen) h1 Hvalid' Hfloor' Hbase')
        as (s' & h' & Hfold & Hv & Hval & Hfl & Htk).
      exists s', h'. rewrite Hview in Hfold, Hv.
      split_and!; try done. by rewrite Htk.
    + by apply IH.
Qed.

Lemma Intersect_unfold (first second : Slice E) (rest : list (Slice E)) :
  Intersect (first :: second :: rest)
  = let counts := fold_left count_slice (second :: rest) ∅ in
    let n := Z.of_nat (length (first :: second :: rest)) - 1 in
    let out :=
      fold_left (λ '(result, seen) item,
                   if negb (flag_of seen item) && (count_of counts item =? n)
                   then (append result item, <[item := true]> seen)
                   else (result, seen))
                (elems first) (None, ∅) in
    if (len out.1 =? 0) && (len first >? 0) then Some [] else out.1.
Proof.
  unfold Intersect. cbv zeta. by destruct (fold_left _ (elems first) _).
Qed.

Lemma Mem_Intersect_unfold (first second : Mem.slice) rest h :
  Mem.Intersect zero grow (first :: second :: rest) h
  = let counts :=
      fold_left count_slice (Mem.view h <$> second :: rest) ∅ in
    let n := Z.of_nat (length (first :: second :: rest)) - 1 in
    let out :=
      fold_left (λ '(result, seen, h) item,
                   if negb (flag_of seen item) && (count_of counts item =? n)
                   then
                     let '(result', h') := Mem.append zero grow result item h in
                     (result', <[item := true]> seen, h')
                   else (result, seen, h))
                (elems (Mem.view h first)) (Mem.nil, ∅, h) in
    if (Z.of_nat (Mem.len out.1.1) =? 0) && (Z.of_nat (Mem.len first) >? 0)
    then Mem.empty out.2 else (out.1.1, out.2).
Proof.
  unfold Mem.Intersect. rewrite count_slices_view. cbv zeta.
  by destruct (fold_left _ (elems (Mem.view h first)) _) as [[result seen] h'].
Qed.

(** X20.  [Intersect] on the store shows what [Intersect] on values
    returns, and the arrays of its inputs are as they were. *)
Lemma Intersect_agrees (collections : list Mem.slice) h :
  Forall (Mem.valid h) collections →
  let out := Mem.Intersect zero grow collections h in
  Mem.view out.2 out.1 = Intersect (Mem.view h <$> collections)
  ∧ take (length h) out.2 = h.
Proof.
  intros Hvalid. destruct collections as [|first [|second rest]].
  - simpl. by rewrite firstn_all.
  - simpl. by rewrite firstn_all.
  - cbv zeta. rewrite Mem_Intersect_unfold, !fmap_cons, Intersect_unfold.
    rewrite <- (fmap_cons (Mem.view h) second rest). cbv zeta.
    replace (length (Mem.view h first :: (Mem.view h <$> second :: rest)))
      with (length (first :: second :: rest))
      by (simpl; by rewrite length_fmap).
    set (counts := fold_left count_slice (Mem.view h <$> second :: rest) ∅).
    set (n := Z.of_nat (length (first :: second :: rest)) - 1).
    pose (ok := λ item : E, count_of counts item =? n).
    destruct (Intersect_loop_agree ok (length h) (elems (Mem.view h first))
                Mem.nil ∅ h (valid_nil h) (le_n _))
      as (s' & h' & Hfold & Hv & Hval & Hfl & Htk); [done|].
    unfold ok in Hfold, Hv. cbv zeta in Hfold, Hv.
    change (Mem.view h Mem.nil) with (@None (list E)) in Hfold, Hv.
    rewrite Hfold. rewrite <- Hv. cbn [fst snd].
    apply Forall_cons in Hvalid as [Hfirst _].
    unfold len. rewrite !length_view by done.
    destruct ((Z.of_nat (Mem.len s') =? 0) && (Z.of_nat (Mem.len first) >? 0)).
    + unfold Mem.empty, Mem.alloc. cbn [fst snd]. split.
      * unfold Mem.view. simpl. by rewrite array_alloc.
      * rewrite take_app_le by done. by rewrite Htk, firstn_all.
    + cbn [fst snd]. by rewrite Htk, firstn_all.
Qed.
End IntersectAgreement.

(** * Further properties of the package *)

(** ** Map, Pluck and ForEach *)

Section Transforms.
Context {E R : Type}.
Implicit Types (l : list E).

Lemma map_from_lookup (f : E → nat → R) l : ∀ i k,
  map_from f i l !! k = (λ x, f x (i + k)%nat) <$> l !! k.
Proof.
  induction l as [|x rest IH]; intros i k; simpl; [done|].
  destruct k as [|k]; simpl.
  - by rewrite Nat.add_0_r.
  - rewrite IH. by replace (S i + k)%nat with (i + S k)%nat by lia.
Qed.

Lemma map_from_fmap (g : E → R) l : ∀ i, map_from (λ x _, g x) i l = g <$> l.
Proof. induction l as [|x rest IH]; intros i; simpl; [done|]. by rewrite IH. Qed.

Lemma range_from_shift {A : Type} (body : A → nat → E → A) l : ∀ i (acc : A),
  range_from body i l acc
  = fold_left (λ acc '(k, x), body acc k x) (imap (λ k x, ((i + k)%nat, x)) l) acc.
Proof.
  induction l as [|x rest IH]; intros i acc; simpl; [done|].
  rewrite Nat.add_0_r, IH. f_equal. apply imap_ext. intros k y _. simpl.
  f_equal. lia.
Qed.
End Transforms.

(** X1.  [Map] keeps nil nil and otherwise returns a slice of the same
    length whose element at every index [k] is the iteratee applied to the
    input's element at [k] and to [k]; the zero value that [make] filled in
    is nowhere left. *)
Theorem Map_pointwise {E R : Type} (zero : R) (collection : Slice E)
    (iteratee : E → nat → R) :
  (Map zero collection iteratee = None ↔ collection = None)
  ∧ length (elems (Map zero collection iteratee)) = length (elems collection)
  ∧ ∀ k, elems (Map zero collection iteratee) !! k
         = (λ item, iteratee item k) <$> elems collection !! k.
Proof.
  destruct collection as [l|]; [|done]. rewrite Map_present. simpl.
  split_and!; [done| apply length_map_from |].
  intros k. by rewrite map_from_lookup.
Qed.

(** X2.  [Pluck] returns what [Map] returns for the iteratee that ignores
    the index: nil for nil, and otherwise the getter applied to every
    element in order. *)
Theorem Pluck_is_Map {E R : Type} (zero : R) (collection : Slice E)
    (propertyGetter : E → R) :
  Pluck zero collection propertyGetter
  = Map zero collection (λ item _, propertyGetter item)
  ∧ Pluck zero collection propertyGetter
    = (λ l : list E, propertyGetter <$> l) <$> collection.
Proof.
  split; [done|]. destruct collection as [l|]; [|done].
  change (Pluck zero (Some l) propertyGetter)
    with (Map zero (Some l) (λ item _, propertyGetter item)).
  rewrite Map_present. simpl. by rewrite map_from_fmap.
Qed.

(** X3.  [ForEach] runs the action once per element, in index order, with
    the element and its index: run with an action that logs its arguments
    it produces the list of (index, element) pairs of the slice, and any
    other action is the fold of that list.  On a nil or empty slice the
    state is untouched. *)
Theorem ForEach_visits_in_order {E St : Type} (collection : Slice E)
    (action : E → nat → St → St) (st : St) :
  ForEach collection (λ item i log, log ++ [(i, item)]) []
  = imap (λ i item, (i, item)) (elems collection)
  ∧ ForEach collection action st
    = fold_left (λ st '(i, item), action item i st)
                (ForEach collection (λ item i log, log ++ [(i, item)]) []) st
  ∧ (elems collection = [] → ForEach collection action st = st).
Proof.
  assert (∀ (l log : list (nat * E)),
            fold_left (λ log '(i, item), log ++ [(i, item)]) l log = log ++ l)
    as Hlog.
  { induction l as [|[i x] l IH]; intros log; simpl.
    - by rewrite app_nil_r.
    - rewrite IH. by rewrite <- app_assoc. }
  assert (ForEach collection (λ item i log, log ++ [(i, item)]) []
          = imap (λ i item, (i, item)) (elems collection)) as Htrace.
  { unfold ForEach, range. rewrite range_from_shift. by rewrite Hlog. }
  split_and!; [done| |].
  - rewrite Htrace. unfold ForEach, range. by rewrite range_from_shift.
  - intros Hnil. unfold ForEach. by rewrite Hnil.
Qed.

(** ** Flatten *)

Section FlattenFacts.
Context {E : Type}.

End FlattenFacts.


(** ** Partition, FindFirst and FindLast against Filter *)

Section Searches.
Context {E : Type}.
Implicit Types (l : list E) (p : E → nat → bool).

Lemma elems_Filter (collection : Slice E) p :
  elems (Filter collection p) = select_from p 0 (elems collection).
Proof.
  destruct collection as [l|]; [|done]. rewrite Filter_present.
  by rewrite elems_grown.
Qed.

Lemma Partition_present p l :
  Partition (Some l) p
  = (let m := grown None (select_from p 0 l) in
     let u := grown None (select_from (λ x k, negb (p x k)) 0 l) in
     (if (len m =? 0) && (len (Some l) >? 0) then Some [] else m,
      if (len u =? 0) && (len (Some l) >? 0) then Some [] else u)).
Proof. unfold Partition, range. by rewrite Partition_loop. Qed.

Lemma elems_normalised (s : Slice E) (b : bool) :
  elems (if (len s =? 0) && b then Some [] else s) = elems s.
Proof.
  rewrite len_zero. destruct (elems s) eqn:Hs; simpl; [|done].
  by destruct b.
Qed.

Lemma select_from_app p l1 l2 : ∀ i,
  select_from p i (l1 ++ l2)
  = select_from p i l1 ++ select_from p (i + length l1) l2.
Proof.
  induction l1 as [|x l1 IH]; intros i; simpl.
  - by rewrite Nat.add_0_r.
  - rewrite IH, <- app_assoc. by replace (S i + length l1)%nat
      with (i + S (length l1))%nat by lia.
Qed.

Lemma find_from_head p l : ∀ i, find_from p i l = head (select_from p i l).
Proof.
  induction l as [|x rest IH]; intros i; simpl; [done|].
  destruct (p x i); simpl; [done|apply IH].
Qed.

Lemma find_last_loop_last p l : ∀ n,
  (n ≤ length l)%nat →
  find_last_loop p n l = Some (last (select_from p 0 (take n l))).
Proof.
  induction n as [|i IH]; intros Hn; simpl; [done|].
  destruct (lookup_lt_is_Some_2 l i) as [x Hx]; [lia|].
  rewrite Hx, (take_S_r l i x Hx), select_from_app. simpl.
  rewrite length_take, Nat.min_l by lia.
  destruct (p x i); simpl.
  - by rewrite last_snoc.
  - rewrite app_nil_r. apply IH. lia.
Qed.
End Searches.

(** X5.  The two sides of [Partition] hold the elements [Filter] returns
    for the predicate and for its negation; the sides differ from
    [Filter]'s results only in being the empty slice where [Filter] gives
    nil on a populated input. *)
Theorem Partition_matches_Filter {E : Type} (collection : Slice E)
    (p : E → nat → bool) :
  elems (Partition collection p).1 = elems (Filter collection p)
  ∧ elems (Partition collection p).2
    = elems (Filter collection (λ item k, negb (p item k)))
  ∧ (Filter collection p ≠ None → (Partition collection p).1 = Filter collection p)
  ∧ (elems collection ≠ [] → Filter collection p = None →
     (Partition collection p).1 = Some []).
Proof.
  destruct collection as [l|]; [|done].
  rewrite !elems_Filter, Partition_present. cbv zeta. cbn [fst snd].
  rewrite !elems_normalised, !elems_grown, Filter_present. simpl.
  split_and!; try done.
  - intros Hsome. destruct (select_from p 0 l); done.
  - intros Hne Hnil. apply grown_nil in Hnil. rewrite Hnil. simpl.
    by destruct l.
Qed.

(** X6.  [FindFirst] returns the first element of what [Filter] returns
    for the same predicate, with [true], and the zero value with [false]
    when [Filter] returns nothing, which includes the nil and the empty
    input. *)
Theorem FindFirst_is_head_of_Filter {E : Type} (zero : E) (collection : Slice E)
    (p : E → nat → bool) :
  FindFirst zero collection p
  = match head (elems (Filter collection p)) with
    | Some item => (item, true)
    | None => (zero, false)
    end.
Proof.
  rewrite elems_Filter. unfold FindFirst. rewrite find_from_head, len_zero.
  by destruct (elems collection).
Qed.

(** X7.  [FindLast] never indexes out of range, and returns the last
    element of what [Filter] returns for the same predicate, with [true],
    or the zero value with [false] when there is none. *)
Theorem FindLast_is_last_of_Filter {E : Type} (zero : E) (collection : Slice E)
    (p : E → nat → bool) :
  FindLast zero collection p
  = Some match last (elems (Filter collection p)) with
         | Some item => (item, true)
         | None => (zero, false)
         end.
Proof.
  rewrite elems_Filter. unfold FindLast.
  rewrite find_last_loop_last, firstn_all, len_zero by done.
  destruct (elems collection); [done|]. simpl.
  by destruct (last _).
Qed.

(** ** Contains, IndexOf and LastIndexOf *)

Section IndexFacts.
Context `{Countable E}.
Implicit Types (l : list E) (x : E).

(** The forward search: not found, or found at the least index. *)
Lemma index_from_spec l x : ∀ i,
  (index_from i l x = -1 ∧ x ∉ l ∨
   ∃ k : nat, index_from i l x = i + Z.of_nat k ∧ l !! k = Some x
              ∧ ∀ j, (j < k)%nat → l !! j ≠ Some x) ∨ i < 0.
Proof.
  induction l as [|y rest IH]; intros i; simpl.
  - left. left. split; [done|]. apply not_elem_of_nil.
  - destruct (Z.lt_ge_cases i 0) as [Hneg|Hi]; [by right|]. left.
    destruct (decide (x = y)) as [->|Hne].
    + right. exists 0%nat. split_and!; [lia|done|lia].
    + destruct (IH (i + 1)) as [[[Hidx Hnot]|(k & Hidx & Hk & Hmin)]|?]; [| |lia].
      * left. split; [done|]. rewrite not_elem_of_cons. done.
      * right. exists (S k). split_and!; [lia|done|].
        intros [|j] Hj; simpl; [congruence|apply Hmin; lia].
Qed.

(** The backward search over the first [n] elements: it stays in range,
    and finds nothing or the greatest index below [n]. *)
Lemma last_index_loop_spec l x : ∀ n,
  (n ≤ length l)%nat →
  (last_index_loop n l x = Some (-1) ∧ ∀ j, (j < n)%nat → l !! j ≠ Some x)
  ∨ ∃ k : nat, last_index_loop n l x = Some (Z.of_nat k) ∧ (k < n)%nat
               ∧ l !! k = Some x ∧ ∀ j, (k < j < n)%nat → l !! j ≠ Some x.
Proof.
  induction n as [|i IH]; intros Hn; simpl.
  - left. split; [done|]. intros j Hj. lia.
  - destruct (lookup_lt_is_Some_2 l i) as [y Hy]; [lia|]. rewrite Hy. simpl.
    destruct (decide (y = x)) as [->|Hne].
    + right. exists i. split_and!; [done|lia|done|]. intros j Hj. lia.
    + destruct IH as [[Hloop Hnone]|(k & Hloop & Hk & Hx & Hmax)]; [lia| |].
      * left. split; [done|]. intros j Hj.
        destruct (decide (j = i)) as [->|]; [congruence|apply Hnone; lia].
      * right. exists k. split_and!; [done|lia|done|]. intros j Hj.
        destruct (decide (j = i)) as [->|]; [congruence|apply Hmax; lia].
Qed.

Lemma not_elem_of_lookup l x : x ∉ l ↔ ∀ j, l !! j ≠ Some x.
Proof.
  rewrite list_elem_of_lookup. split.
  - intros Hnot j Hj. apply Hnot. by exists j.
  - intros Hall [j Hj]. by apply (Hall j).
Qed.
End IndexFacts.

(** X8.  [IndexOf] returns -1 exactly when the element does not occur in
    the slice (a nil or empty slice included), and otherwise the least
    index at which it occurs; [Contains] is true exactly when the element
    occurs, that is when [IndexOf] is not negative. *)
Theorem IndexOf_least `{Countable E} (collection : Slice E) (element : E) :
  (IndexOf collection element = -1 ↔ element ∉ elems collection)
  ∧ -1 ≤ IndexOf collection element < len collection
  ∧ (∀ k : nat,
       IndexOf collection element = Z.of_nat k
       ↔ elems collection !! k = Some element
         ∧ ∀ j, (j < k)%nat → elems collection !! j ≠ Some element)
  ∧ (Contains collection element = true ↔ element ∈ elems collection)
  ∧ (Contains collection element = true ↔ 0 ≤ IndexOf collection element).
Proof.
  unfold Contains, slices_Contains, IndexOf, slices_Index, len.
  set (l := elems collection).
  destruct (index_from_spec l element 0)
    as [[[Hidx Hnot]|(k & Hidx & Hk & Hmin)]|?]; [| |lia]; rewrite Hidx.
  - split_and!.
    + done.
    + lia.
    + lia.
    + intros k. split; [lia|]. intros [Hk _].
      destruct Hnot. by eapply list_elem_of_lookup_2.
    + split; [done|]. intros Hin. by destruct Hnot.
    + split; [done|lia].
  - pose proof (lookup_lt_Some _ _ _ Hk) as Hlt.
    assert (element ∈ l) as Hin by (by eapply list_elem_of_lookup_2).
    split_and!.
    + split; [lia|]. intros Hnot. by destruct Hnot.
    + lia.
    + lia.
    + intros k'. split.
      * intros Heq. assert (k' = k) as -> by lia. done.
      * intros [Hk' Hmin']. destruct (lt_eq_lt_dec k k') as [[Hlt'| ->]|Hlt'].
        -- by destruct (Hmin' k Hlt').
        -- lia.
        -- by destruct (Hmin k' Hlt').
    + split; [done|]. intros _. apply Z.geb_le. lia.
    + split; [lia|]. intros _. apply Z.geb_le. lia.
Qed.

(** X9.  [LastIndexOf] never indexes out of range; it returns -1 exactly
    when the element does not occur, and otherwise the greatest index at
    which it occurs, which is not below what [IndexOf] returns. *)
Theorem LastIndexOf_greatest `{Countable E} (collection : Slice E) (element : E) :
  ∃ r : Z,
    LastIndexOf collection element = Some r
    ∧ (r = -1 ↔ element ∉ elems collection)
    ∧ (∀ k : nat,
         r = Z.of_nat k
         ↔ elems collection !! k = Some element
           ∧ ∀ j, (k < j)%nat → elems collection !! j ≠ Some element)
    ∧ IndexOf collection element ≤ r
    ∧ (IndexOf collection element = -1 ↔ r = -1).
Proof.
  unfold LastIndexOf, IndexOf, slices_Index. set (l := elems collection).
  destruct (last_index_loop_spec l element (length l) (le_n _))
    as [[Hloop Hnone]|(k & Hloop & Hk & Hx & Hmax)].
  - assert (element ∉ l) as Hnot.
    { apply not_elem_of_lookup. intros j Hj.
      apply (Hnone j); [by eapply lookup_lt_Some|done]. }
    exists (-1). 
    destruct (index_from_spec l element 0)
      as [[[Hidx _]|(k & _ & Hk & _)]|?]; [| |lia].
    + rewrite Hidx. split_and!; try done.
      intros k. split; [lia|]. intros [Hk _].
      destruct Hnot. by eapply list_elem_of_lookup_2.
    + destruct Hnot. by eapply list_elem_of_lookup_2.
  - assert (element ∈ l) as Hin by (by eapply list_elem_of_lookup_2).
    exists (Z.of_nat k).
    destruct (index_from_spec l element 0)
      as [[[_ Hnot]|(k0 & Hidx & Hk0 & Hmin)]|?]; [done| |lia].
    rewrite Hidx. split_and!.
    + done.
    + split; [lia|]. intros Hnot. by destruct Hnot.
    + intros k'. split.
      * intros Heq. assert (k' = k) as -> by lia. split; [done|].
        intros j Hj Hlook. apply (Hmax j); [|done].
        split; [done|]. by eapply lookup_lt_Some.
      * intros [Hk' Hmax']. destruct (lt_eq_lt_dec k k') as [[Hlt'| ->]|Hlt'].
        -- destruct (Hmax k'); [|done]. split; [done|]. by eapply lookup_lt_Some.
        -- done.
        -- by destruct (Hmax' k Hlt').
    + destruct (le_lt_dec k0 k) as [Hle|Hgt]; [lia|].
      by destruct (Hmin k Hgt).
    + lia.
Qed.

(** ** Union, Unique and Difference *)

Section UnionFacts.
Context `{Countable E}.
Implicit Types (l before : list E).

Lemma keep_first_app l1 l2 : ∀ before,
  keep_first before (l1 ++ l2)
  = keep_first before l1 ++ keep_first (before ++ l1) l2.
Proof.
  induction l1 as [|x l1 IH]; intros before; simpl.
  - by rewrite app_nil_r.
  - rewrite IH, <- !app_assoc. done.
Qed.

Lemma keep_first_NoDup l : ∀ before,
  NoDup l → (∀ x, x ∈ l → x ∉ before) → keep_first before l = l.
Proof.
  induction l as [|x l IH]; intros before Hnd Hout; simpl; [done|].
  apply NoDup_cons in Hnd as [Hx Hnd].
  rewrite decide_False by (apply Hout, elem_of_cons; by left). simpl. f_equal.
  apply IH; [done|]. intros y Hy. rewrite elem_of_app, list_elem_of_singleton.
  intros [Hb| ->]; [|done]. apply (Hout y); [|done]. apply elem_of_cons. by right.
Qed.

Lemma grown_grown (acc : Slice E) q1 q2 :
  grown (grown acc q1) q2 = grown acc (q1 ++ q2).
Proof.
  destruct q1 as [|x q1]; [done|]. destruct q2 as [|y q2]; simpl.
  - by rewrite app_nil_r.
  - by rewrite <- app_assoc.
Qed.

(** The loop shared by [Unique] and [Union], with the set it leaves. *)
Lemma seen_loop l : ∀ (seen : gset E) before (acc : Slice E),
  (∀ x, x ∈ seen ↔ x ∈ before) →
  ∃ seen' : gset E,
    fold_left (λ '(seen, result) item,
                 if decide (item ∈ seen) then (seen, result)
                 else ({[item]} ∪ seen, append result item))
              l (seen, acc)
    = (seen', grown acc (keep_first before l))
    ∧ ∀ x, x ∈ seen' ↔ x ∈ before ++ l.
Proof.
  induction l as [|y rest IH]; intros seen before acc Hseen; simpl.
  - exists seen. split; [done|]. intros x. by rewrite app_nil_r.
  - destruct (decide (y ∈ seen)) as [Hin|Hout].
    + rewrite decide_True by (by apply Hseen). simpl.
      destruct (IH seen (before ++ [y]) acc) as (seen' & Hfold & Hseen').
      { intros x. rewrite elem_of_app, list_elem_of_singleton, <- Hseen.
        split; [tauto|]. by intros [?| ->]. }
      exists seen'. split; [done|]. intros x.
      by rewrite Hseen', <- app_assoc.
    + rewrite decide_False by (by rewrite <- Hseen).
      destruct (IH ({[y]} ∪ seen) (before ++ [y]) (append acc y))
        as (seen' & Hfold & Hseen').
      { intros x. rewrite elem_of_app, list_elem_of_singleton, <- Hseen.
        rewrite elem_of_union, elem_of_singleton. tauto. }
      exists seen'. split.
      * rewrite Hfold. f_equal. apply (grown_append acc y).
      * intros x. by rewrite Hseen', <- app_assoc.
Qed.

Lemma Union_loop (slices : list (Slice E)) : ∀ (seen : gset E) before acc,
  (∀ x, x ∈ seen ↔ x ∈ before) →
  (fold_left (λ '(seen, result) slice,
                fold_left (λ '(seen, result) item,
                             if decide (item ∈ seen) then (seen, result)
                             else ({[item]} ∪ seen, append result item))
                          (elems slice) (seen, result))
             slices (seen, acc)).2
  = grown acc (keep_first before (concat (elems <$> slices))).
Proof.
  induction slices as [|c cs IH]; intros seen before acc Hseen; simpl; [done|].
  destruct (seen_loop (elems c) seen before acc Hseen) as (seen' & -> & Hseen').
  rewrite (IH seen' (before ++ elems c)) by done.
  by rewrite grown_grown, keep_first_app.
Qed.

Lemma Union_several (c : Slice E) (cs : list (Slice E)) :
  Union (c :: cs) = grown None (keep_first [] (concat (elems <$> c :: cs))).
Proof.
  unfold Union. simpl length. 
  replace (Z.of_nat (S (length cs)) =? 0) with false by (symmetry; apply Z.eqb_neq; lia).
  apply Union_loop. intros x. rewrite elem_of_empty, elem_of_nil. tauto.
Qed.

Lemma elem_of_concat_elems (slices : list (Slice E)) x :
  x ∈ concat (elems <$> slices) ↔ Exists (λ o : Slice E, x ∈ elems o) slices.
Proof.
  induction slices as [|o os IH]; simpl.
  - rewrite elem_of_nil, Exists_nil. tauto.
  - by rewrite elem_of_app, Exists_cons, IH.
Qed.

Lemma concat_elems_nil (slices : list (Slice E)) :
  concat (elems <$> slices) = [] ↔ Forall (λ o : Slice E, elems o = []) slices.
Proof.
  induction slices as [|o os IH]; [by split; [constructor|]|].
  rewrite fmap_cons. cbn [concat].
  - rewrite Forall_cons. split.
    + intros Hnil. apply app_eq_nil in Hnil as [Ho Hos]. split; [done|].
      by apply IH.
    + intros [Ho Hos]. apply IH in Hos. by rewrite Ho, Hos.
Qed.

Lemma Unique_grown (collection : Slice E) :
  Unique collection = grown None (keep_first [] (elems collection)).
Proof. destruct collection as [l|]; [apply Unique_present|done]. Qed.
End UnionFacts.

(** X10.  [Union] of no slice is nil.  Otherwise it holds the first
    occurrence of every value of the slices, scanned left to right and each
    from its start: no value twice, a value is in it exactly when it is in
    one of the slices, and the result is nil (not empty) exactly when no
    slice has an element. *)
Theorem Union_first_occurrences `{Countable E} :
  Union ([] : list (Slice E)) = None
  ∧ ∀ (c : Slice E) (cs : list (Slice E)),
      elems (Union (c :: cs)) = keep_first [] (concat (elems <$> c :: cs))
      ∧ NoDup (elems (Union (c :: cs)))
      ∧ (∀ x, x ∈ elems (Union (c :: cs)) ↔ Exists (λ o, x ∈ elems o) (c :: cs))
      ∧ (Union (c :: cs) = None ↔ Forall (λ o, elems o = []) (c :: cs)).
Proof.
  split; [done|]. intros c cs. rewrite Union_several, elems_grown.
  generalize (c :: cs). intros slices. rewrite app_nil_l. split_and!.
  - done.
  - apply NoDup_keep_first.
  - intros x. rewrite elem_of_keep_first, elem_of_nil, elem_of_concat_elems.
    tauto.
  - rewrite grown_nil, <- concat_elems_nil. split; [|by intros ->].
    intros Hnil. destruct (concat (elems <$> slices)) as [|x q] eqn:Hq; [done|].
    assert (x ∈ keep_first [] (x :: q)) as Hin.
    { rewrite elem_of_keep_first, elem_of_nil, elem_of_cons. tauto. }
    rewrite Hnil in Hin. by apply elem_of_nil in Hin.
Qed.

(** X11.  [Unique] is idempotent: applied to its own result it changes
    nothing, nil and empty inputs included. *)
Theorem Unique_idempotent `{Countable E} (collection : Slice E) :
  Unique (Unique collection) = Unique collection.
Proof.
  rewrite (Unique_grown collection).
  pose proof (NoDup_keep_first (elems collection) []) as Hnd.
  destruct (keep_first [] (elems collection)) as [|x q] eqn:Hq; [done|].
  change (grown None (x :: q)) with (Some (x :: q)). rewrite Unique_present.
  rewrite keep_first_NoDup; [done|done|]. intros y _. apply not_elem_of_nil.
Qed.


(** X13.  [Difference] of a present first slice keeps, in order and with
    their repetitions, exactly the elements that occur in none of the other
    slices; without other slices that is every element.  The result is nil
    when nothing is kept. *)
Theorem Difference_keeps_the_rest `{Countable E} (l : list E)
    (others : list (Slice E)) :
  elems (Difference (Some l) others)
  = filter (λ x, ¬ Exists (λ o : Slice E, x ∈ elems o) others) l
  ∧ (∀ x, x ∈ elems (Difference (Some l) others)
          ↔ x ∈ l ∧ Forall (λ o : Slice E, x ∉ elems o) others)
  ∧ elems (Difference (Some l) []) = l
  ∧ (Difference (Some l) others = None
     ↔ Forall (λ x, Exists (λ o : Slice E, x ∈ elems o) others) l).
Proof.
  rewrite !Difference_present, !elems_grown. simpl app. split_and!.
  - done.
  - intros x. rewrite list_elem_of_filter, Forall_forall, Exists_exists.
    split.
    + intros [Hno Hin]. split; [done|]. intros o Ho Hx. apply Hno. by exists o.
    + intros [Hin Hall]. split; [|done]. intros (o & Ho & Hx). by apply (Hall o).
  - induction l as [|x l IH]; [done|].
    rewrite filter_cons_True; [by rewrite IH|]. by intros ?%Exists_nil.
  - rewrite grown_nil. induction l as [|x l IH]; [done|].
    rewrite filter_cons, Forall_cons.
    destruct (decide (¬ Exists (λ o : Slice E, x ∈ elems o) others)) as [Hno|Hyes].
    + split; [done|]. tauto.
    + rewrite IH. apply dec_stable in Hyes. tauto.
Qed.

(** ** Reverse *)

Section ReverseFacts.
Context {E : Type}.
Implicit Types (s pre mid post : list E).

(** The tuple assignment on two positions given by what surrounds them. *)
Lemma swap_ends pre x mid y post :
  swap (pre ++ x :: mid ++ y :: post)
       (Z.of_nat (length pre)) (Z.of_nat (length pre + S (length mid)))
  = Some (pre ++ y :: mid ++ x :: post).
Proof.
  unfold swap.
  destruct (Z.ltb_spec (Z.of_nat (length pre)) 0); [lia|].
  destruct (Z.ltb_spec (Z.of_nat (length pre + S (length mid))) 0); [lia|].
  simpl. rewrite !Nat2Z.id.
  rewrite (list_lookup_middle pre _ x (length pre)) by done. simpl.
  rewrite (lookup_app_r pre) by lia.
  replace (length pre + S (length mid) - length pre)%nat
    with (S (length mid)) by lia.
  simpl. rewrite (list_lookup_middle mid _ y (length mid)) by done. simpl.
  f_equal.
  rewrite (insert_app_r_alt pre) by lia. rewrite Nat.sub_diag. simpl.
  rewrite (insert_app_r_alt pre) by lia.
  replace (length pre + S (length mid) - length pre)%nat
    with (S (length mid)) by lia.
  simpl. rewrite (insert_app_r_alt mid) by lia. by rewrite Nat.sub_diag.
Qed.

Lemma reverse_loop_S fuel i j s :
  reverse_loop (S fuel) i j s
  = if i <? j then s' ← swap s i j; reverse_loop fuel (i + 1) (j - 1) s'
    else Some s.
Proof. done. Qed.

(** The two-index loop reverses the part between its indices, as soon as
    the bound allows half as many iterations as that part is long. *)
Lemma reverse_loop_reverses : ∀ fuel mid pre post,
  (length mid ≤ 2 * fuel)%nat →
  reverse_loop fuel (Z.of_nat (length pre))
               (Z.of_nat (length pre) + Z.of_nat (length mid) - 1)
               (pre ++ mid ++ post)
  = Some (pre ++ reverse mid ++ post).
Proof.
  induction fuel as [|fuel IH]; intros mid pre post Hfuel.
  - destruct mid; [done|simpl in Hfuel; lia].
  - rewrite reverse_loop_S. destruct mid as [|x mid].
    { destruct (Z.ltb_spec (Z.of_nat (length pre))
                  (Z.of_nat (length pre) + Z.of_nat (length (@nil E)) - 1));
        [simpl in *; lia|done]. }
    destruct mid as [|y mid _] using rev_ind.
    { destruct (Z.ltb_spec (Z.of_nat (length pre))
                  (Z.of_nat (length pre) + Z.of_nat (length [x]) - 1));
        [simpl in *; lia|done]. }
    assert (length (x :: mid ++ [y]) = S (S (length mid))) as Hlen.
    { simpl. rewrite length_app. simpl. lia. }
    rewrite Hlen in *.
    destruct (Z.ltb_spec (Z.of_nat (length pre))
                (Z.of_nat (length pre) + Z.of_nat (S (S (length mid))) - 1));
      [|lia].
    replace (Z.of_nat (length pre) + Z.of_nat (S (S (length mid))) - 1)
      with (Z.of_nat (length pre + S (length mid))) by lia.
    replace ((x :: mid ++ [y]) ++ post) with (x :: mid ++ y :: post)
      by (simpl; by rewrite <- app_assoc).
    rewrite swap_ends. cbn [mbind option_bind].
    specialize (IH mid (pre ++ [y]) (x :: post)).
    rewrite length_app in IH. simpl length in IH.
    replace (Z.of_nat (length pre) + 1) with (Z.of_nat (length pre + 1)) by lia.
    replace (Z.of_nat (length pre + S (length mid)) - 1)
      with (Z.of_nat (length pre + 1) + Z.of_nat (length mid) - 1) by lia.
    rewrite <- !app_assoc in IH. simpl in IH. rewrite IH by lia.
    rewrite reverse_cons, reverse_snoc. simpl. by rewrite <- !app_assoc.
Qed.

Lemma slices_Reverse_reverse s : slices_Reverse s = Some (reverse s).
Proof.
  unfold slices_Reverse.
  pose proof (reverse_loop_reverses (length s) s [] []) as Hloop.
  simpl in Hloop. rewrite !app_nil_r in Hloop. apply Hloop. lia.
Qed.

Lemma copy_into_fresh (zero : E) s :
  copy_into (replicate (length s) zero) s = s.
Proof.
  unfold copy_into. rewrite length_replicate, firstn_all.
  rewrite drop_ge by (by rewrite length_replicate). apply app_nil_r.
Qed.

Lemma Reverse_present (zero : E) s : Reverse zero (Some s) = Some (Some (reverse s)).
Proof.
  unfold Reverse, len. simpl elems. destruct s as [|x s]; [done|].
  replace (Z.of_nat (length (x :: s)) =? 0) with false by done.
  rewrite Nat2Z.id, copy_into_fresh. by rewrite slices_Reverse_reverse.
Qed.
End ReverseFacts.

(** X14.  [Reverse] never indexes out of range.  It gives nil for nil, the
    empty slice for the empty slice, and otherwise the elements in the
    opposite order; reversing twice gives back the slice, nil or empty as
    it was. *)
Theorem Reverse_reverses {E : Type} (zero : E) (collection : Slice E) :
  Reverse zero collection = Some (reverse <$> collection)
  ∧ Reverse zero collection ≫= Reverse zero = Some collection.
Proof.
  destruct collection as [l|]; [|by split].
  rewrite Reverse_present. cbn [fmap option_fmap option_map mbind option_bind].
  by rewrite Reverse_present, reverse_involutive.
Qed.

(** ** Zip and ZipWithIndex *)

Section ZipFacts.
Context {E E2 : Type}.

(** The loop of [Zip] with the first [length stored] pairs in place. *)
Lemma zip_loop_zip (zero : E * E2) (l1 : list E) (l2 : list E2) :
  ∀ n (stored : list (E * E2)),
  (length stored + n ≤ length l1)%nat → (length stored + n ≤ length l2)%nat →
  zip_loop (seq (length stored) n) l1 l2 (stored ++ replicate n zero)
  = Some (stored ++ take n (drop (length stored) (zip l1 l2))).
Proof.
  induction n as [|n IH]; intros stored H1 H2; simpl.
  - done.
  - destruct (lookup_lt_is_Some_2 l1 (length stored)) as [a Ha]; [lia|].
    destruct (lookup_lt_is_Some_2 l2 (length stored)) as [b Hb]; [lia|].
    rewrite Ha, Hb. simpl.
    rewrite insert_app_r_alt, Nat.sub_diag by done. simpl.
    rewrite (cons_middle (a, b) stored), app_assoc.
    replace (S (length stored)) with (length (stored ++ [(a, b)]))
      by (rewrite length_app; simpl; lia).
    rewrite IH by (rewrite length_app; simpl; lia).
    rewrite <- app_assoc. simpl. do 2 f_equal.
    assert (zip l1 l2 !! length stored = Some (a, b)) as Hz.
    { by rewrite lookup_zip_with, Ha, Hb. }
    rewrite (drop_S _ _ _ Hz). simpl. do 2 f_equal.
    rewrite length_app. simpl. f_equal. lia.
Qed.

Lemma Zip_present (zero : E * E2) (l1 : list E) (l2 : list E2) :
  Zip zero (Some l1) (Some l2) = Some (Some (zip l1 l2)).
Proof.
  unfold Zip, len. simpl elems.
  set (m := if Z.of_nat (length l2) <? Z.of_nat (length l1)
            then Z.of_nat (length l2) else Z.of_nat (length l1)).
  assert (m = Z.of_nat (length (zip l1 l2))) as Hm.
  { unfold m. rewrite length_zip_with.
    destruct (Z.ltb_spec (Z.of_nat (length l2)) (Z.of_nat (length l1))); lia. }
  destruct (Z.eqb_spec m 0) as [H0|Hpos].
  - do 2 f_equal. symmetry. apply length_zero_iff_nil. lia.
  - rewrite length_replicate.
    pose proof (zip_loop_zip zero l1 l2 (Z.to_nat m) []) as Hloop.
    simpl in Hloop. rewrite Hloop.
    + simpl. do 2 f_equal. rewrite drop_0. apply take_ge. lia.
    + unfold m. destruct (Z.ltb_spec (Z.of_nat (length l2)) (Z.of_nat (length l1))); lia.
    + unfold m. destruct (Z.ltb_spec (Z.of_nat (length l2)) (Z.of_nat (length l1))); lia.
Qed.

Lemma zip_indices (l : list E) : ∀ i,
  zip l (Z.of_nat <$> seq i (length l)) = map_from (λ item k, (item, Z.of_nat k)) i l.
Proof.
  induction l as [|x l IH]; intros i; simpl; [done|]. f_equal. apply IH.
Qed.
End ZipFacts.

(** X15.  [Zip] never indexes out of range.  It is nil when either slice
    is nil, and otherwise the slice of the pairs of elements at equal
    indices, as long as the shorter of the two: the empty slice, not nil,
    when one of them is empty. *)
Theorem Zip_pairs {E E2 : Type} (zero : E * E2) (slice1 : Slice E)
    (slice2 : Slice E2) :
  Zip zero slice1 slice2
  = Some match slice1, slice2 with
         | Some l1, Some l2 => Some (zip l1 l2)
         | _, _ => None
         end
  ∧ ∀ (l1 : list E) (l2 : list E2), ∃ r,
      Zip zero (Some l1) (Some l2) = Some (Some r)
      ∧ length r = (length l1 `min` length l2)%nat
      ∧ ∀ k a b, r !! k = Some (a, b) ↔ l1 !! k = Some a ∧ l2 !! k = Some b.
Proof.
  split.
  - destruct slice1 as [l1|], slice2 as [l2|]; try done. apply Zip_present.
  - intros l1 l2. exists (zip l1 l2). rewrite Zip_present. split_and!.
    + done.
    + apply length_zip_with.
    + intros k a b. rewrite lookup_zip_with_Some.
      split; [by intros (a' & b' & [= <- <-] & ? & ?)|].
      intros [? ?]. by exists a, b.
Qed.

(** X16.  [ZipWithIndex] pairs every element with its index: it is [Map]
    with the iteratee that builds the pair, and it is what [Zip] returns for
    the slice and the slice of the indices [0 .. len - 1], nil for nil and
    empty for empty. *)
Theorem ZipWithIndex_is_Zip {E : Type} (zero : E * Z) (collection : Slice E) :
  ZipWithIndex zero collection
  = Map zero collection (λ item i, (item, Z.of_nat i))
  ∧ Zip zero collection (Some (Z.of_nat <$> seq 0 (length (elems collection))))
    = Some (ZipWithIndex zero collection)
  ∧ ∀ k, elems (ZipWithIndex zero collection) !! k
         = (λ item, (item, Z.of_nat k)) <$> elems collection !! k.
Proof.
  assert (ZipWithIndex zero collection
          = Map zero collection (λ item i, (item, Z.of_nat i))) as Hmap.
  { destruct collection as [l|]; [|done]. unfold ZipWithIndex, Map, len.
    simpl elems. rewrite Nat2Z.id. by destruct l. }
  rewrite Hmap. split_and!; [done| |].
  - destruct collection as [l|]; [|done].
    rewrite Zip_present, Map_present. simpl elems. by rewrite zip_indices.
  - intros k. destruct collection as [l|]; [|done].
    rewrite Map_present. simpl elems. by rewrite map_from_lookup.
Qed.

(** ** GroupBy *)

Section GroupByFacts.
Context {E : Type} `{Countable K}.
Implicit Types (l : list E) (result : gmap K (Slice E)).

Lemma GroupBy_loop (keySelector : E → K) l : ∀ result (seen : list E),
  (∀ k, result !! k
        = match filter (λ x, keySelector x = k) seen with
          | [] => None
          | q => Some (Some q)
          end) →
  ∀ k, fold_left (λ result item,
                    let key := keySelector item in
                    <[key := append (default None (result !! key)) item]> result)
                 l result !! k
       = match filter (λ x, keySelector x = k) (seen ++ l) with
         | [] => None
         | q => Some (Some q)
         end.
Proof.
  induction l as [|x l IH]; intros result seen Hinv k; simpl.
  - by rewrite app_nil_r.
  - rewrite (IH _ (seen ++ [x])); [by rewrite <- app_assoc|].
    intros k'. rewrite filter_app, lookup_insert.
    destruct (decide (keySelector x = k')) as [<-|Hne].
    + rewrite filter_cons_True, filter_nil by done. rewrite Hinv.
      destruct (filter _ seen) as [|y q]; [done|]. unfold append. simpl.
      done.
    + rewrite filter_cons_False, filter_nil, app_nil_r by done. apply Hinv.
Qed.
End GroupByFacts.

(** X17.  [GroupBy] of nil is the nil map.  For a present slice the map
    has, under every key, the elements whose key it is, in their original
    order, and no entry for a key that no element has; so every element is
    in exactly the group of its key, no group is empty, and the empty slice
    gives the empty map. *)
Theorem GroupBy_groups {E : Type} `{Countable K} (keySelector : E → K) :
  GroupBy None keySelector = None
  ∧ GroupBy (Some []) keySelector = Some ∅
  ∧ ∀ l : list E, ∃ groups : gmap K (Slice E),
      GroupBy (Some l) keySelector = Some groups
      ∧ (∀ k, groups !! k
              = match filter (λ x, keySelector x = k) l with
                | [] => None
                | q => Some (Some q)
                end)
      ∧ (∀ k, is_Some (groups !! k) ↔ ∃ x, x ∈ l ∧ keySelector x = k).
Proof.
  split_and!; [done|done|]. intros l. eexists. split; [reflexivity|].
  assert (∀ k, fold_left (λ (result : gmap K (Slice E)) item,
                    let key := keySelector item in
                    <[key := append (default None (result !! key)) item]> result)
                 l ∅ !! k
       = match filter (λ x, keySelector x = k) l with
         | [] => None
         | q => Some (Some q)
         end) as Hgroups.
  { intros k. rewrite (GroupBy_loop keySelector l ∅ []); [done|].
    intros k'. by rewrite lookup_empty. }
  split; [done|]. intros k. rewrite Hgroups. split.
  - intros Hsome. destruct (filter _ l) as [|x q] eqn:Hf; [by destruct Hsome|].
    assert (x ∈ filter (λ x, keySelector x = k) l) as Hin
      by (rewrite Hf; apply elem_of_cons; by left).
    apply list_elem_of_filter in Hin as [Hk Hx]. by exists x.
  - intros (x & Hx & Hk).
    assert (x ∈ filter (λ x, keySelector x = k) l) as Hin
      by (by apply list_elem_of_filter).
    destruct (filter _ l); [by apply elem_of_nil in Hin|]. by eexists.
Qed.

(** ** Shuffle keeps the elements *)

Section ShufflePermutes.
Context {E : Type}.
Variable source : nat → nat → option (list Byte.byte).
Implicit Types (l : list E) (w : world).

Lemma exchange_Permutation l i j : exchange l i j ≡ₚ l.
Proof.
  unfold exchange. destruct (l !! i) as [a|] eqn:Ha; [|done].
  destruct (l !! j) as [b|] eqn:Hb; [|done].
  by apply Permutation_insert_swap.
Qed.

(** Whatever the source answers, the loop does not panic, returns a
    rearrangement of what it was given and asks the source at most once per
    index. *)
Lemma shuffle_loop_permutes : ∀ i l w,
  (i < length l)%nat →
  ∃ r requests,
    shuffle_loop source i l w = (Some r, w ++ requests)
    ∧ r ≡ₚ l ∧ (length requests ≤ i)%nat.
Proof.
  induction i as [|i IH]; intros l w Hi.
  - exists l, []. simpl. by rewrite app_nil_r.
  - destruct (source (length w) (spec_width (Z.of_nat (S i)))) as [bs|] eqn:Hsrc.
    + rewrite (shuffle_turn source i l w bs) by done. cbv zeta.
      edestruct IH as (r & requests & Hloop & Hperm & Hlen);
        [|rewrite Hloop; eexists r, (_ :: requests); split_and!].
      * rewrite length_exchange. lia.
      * by rewrite <- app_assoc.
      * by rewrite Hperm, exchange_Permutation.
      * simpl. lia.
    + rewrite shuffle_turn_error by done.
      exists l, [spec_width (Z.of_nat (S i))]. split_and!; try done.
      simpl. lia.
Qed.
End ShufflePermutes.

(** X18.  Whatever the entropy source does, answer or fail at any
    request, [Shuffle] does not panic, returns a slice with the same
    elements as often as the input has them, nil exactly for nil, and asks
    the source for at most [len - 1] buffers. *)
Theorem Shuffle_permutes {E : Type}
    (source : nat → nat → option (list Byte.byte))
    (collection : Slice E) (w : world) :
  ∃ (result : Slice E) (requests : list nat),
    Shuffle source collection w = (Some result, w ++ requests)
    ∧ elems result ≡ₚ elems collection
    ∧ (result = None ↔ collection = None)
    ∧ (length requests ≤ length (elems collection) - 1)%nat.
Proof.
  destruct collection as [l|].
  - unfold Shuffle, len. simpl elems.
    destruct (Z.leb_spec (Z.of_nat (length l)) 1).
    + exists (Some l), []. rewrite app_nil_r. split_and!; done || (simpl; lia).
    + destruct (shuffle_loop_permutes source (Z.to_nat (Z.of_nat (length l) - 1)) l w)
        as (r & requests & Hloop & Hperm & Hlen); [lia|].
      rewrite Hloop. exists (Some r), requests. split_and!; done || lia.
  - exists None, []. simpl. rewrite app_nil_r. split_and!; done || (simpl; lia).
Qed.

Lemma Shuffle_error_at_first_request_witness :
  Shuffle (λ _ _, None) (Some [1; 2; 3; 4; 5]) []
  = (Some (Some [1; 2; 3; 4; 5]), [1%nat]).
Proof.
  apply (Shuffle_error_at_first_request (λ _ _, None) [1; 2; 3; 4; 5] []).
  - simpl. lia.
  - reflexivity.
Defined.

Lemma Intersect_agrees_witness :
  let h : Mem.store Z := [[1; 2; 3]; [3; 1]] in
  let out := Mem.Intersect 0 id
               [Mem.Header (Some 0%nat) 0 3 3; Mem.Header (Some 1%nat) 0 2 2] h in
  Mem.view out.2 out.1
  = Intersect (Mem.view h <$> [Mem.Header (Some 0%nat) 0 3 3;
                               Mem.Header (Some 1%nat) 0 2 2])
  ∧ take (length h) out.2 = h.
Proof.
  apply (Intersect_agrees 0 id
           [Mem.Header (Some 0%nat) 0 3 3; Mem.Header (Some 1%nat) 0 2 2]
           [[1; 2; 3]; [3; 1]]).
  repeat constructor; simpl; lia.
Defined.

(** ** Take and Drop on the store *)

Section StoreFacts.
Context {E : Type}.
Variable zero : E.
Variable grow : nat → nat.
Implicit Types (h : Mem.store E) (s : Mem.slice).

Lemma array_lookup h b : (b < length h)%nat → h !! b = Some (Mem.array h b).
Proof.
  intros Hb. unfold Mem.array.
  by destruct (lookup_lt_is_Some_2 h b Hb) as [a ->].
Qed.

(** A slice expression within the length of a slice that is not nil: no
    panic, and the window it shows. *)
Lemma view_subslice h s i j :
  Mem.valid h s → Mem.is_nil s = false →
  0 ≤ i → i ≤ j → j ≤ Z.of_nat (Mem.len s) →
  ∃ p, Mem.subslice s i j = Some p
       ∧ Mem.valid h p
       ∧ Mem.view h p
         = Some (take (Z.to_nat (j - i)) (drop (Z.to_nat i) (elems (Mem.view h s))))
       ∧ Mem.base p = Mem.base s
       ∧ Mem.len p = Z.to_nat (j - i).
Proof.
  unfold Mem.valid, Mem.is_nil, Mem.subslice, Mem.view.
  destruct (Mem.base s) as [b|] eqn:Hb; [|done].
  intros (Hbh & Hlc & Hoc) _ Hi Hij Hj.
  rewrite decide_True by lia. eexists. split; [done|]. simpl.
  split_and!; try done; try lia. f_equal.
  set (a := Mem.array h b) in *.
  rewrite <- drop_drop.
  rewrite <- (take_drop (Mem.len s) (drop (Mem.off s) a)) at 1.
  rewrite drop_app_le by (rewrite length_take, length_drop; lia).
  rewrite take_app_le; [done|].
  rewrite length_drop, length_take, length_drop. lia.
Qed.

(** [slices.Clone] shows what its argument shows, leaves every array that
    was there as it was, and puts a slice that has elements into an array
    of its own. *)
Lemma Clone_spec h s :
  Mem.valid h s →
  let out := Mem.Clone zero grow s h in
  Mem.view out.2 out.1 = Mem.view h s
  ∧ Mem.valid out.2 out.1
  ∧ take (length h) out.2 = h
  ∧ Mem.len out.1 = Mem.len s
  ∧ ((0 < Mem.len s)%nat → Mem.base out.1 = Some (length h)).
Proof.
  intros Hvalid. pose proof (length_view h s Hvalid) as Hlen.
  unfold Mem.Clone, Mem.append_all. simpl Mem.len. simpl Mem.cap.
  rewrite Hlen. simpl.
  destruct (decide (Mem.len s ≤ 0)%nat) as [Hzero|Hpos].
  - assert (Mem.len s = 0%nat) as H0 by lia.
    unfold Mem.valid in Hvalid. unfold Mem.view in *.
    destruct (Mem.base s) as [b|] eqn:Hb; simpl.
    + destruct Hvalid as (Hbh & Hlc & Hoc).
      rewrite Nat.add_0_r, app_assoc, take_take_drop, take_drop.
      rewrite list_insert_id by (by apply array_lookup).
      unfold Mem.valid. simpl.
      split_and!; try done; try lia. by rewrite firstn_all.
    + unfold Mem.valid. simpl.
      split_and!; try done; try lia. by rewrite firstn_all.
  - cbn [fst snd].
    assert (elems (Mem.view h (Mem.Header (Mem.base s) (Mem.off s) 0 0)) = [])
      as -> by (unfold Mem.view; by destruct (Mem.base s)).
    rewrite app_nil_l.
    assert (Mem.view h s = Some (elems (Mem.view h s))) as Hsome.
    { unfold Mem.view in *. destruct (Mem.base s); simpl in *; [done|lia]. }
    split_and!.
    + unfold Mem.view at 1. simpl. rewrite array_alloc, drop_0.
      by rewrite take_app_length', <- Hsome by done.
    + unfold Mem.valid. simpl. rewrite array_alloc, !length_app, length_replicate.
      simpl. lia.
    + by rewrite take_app_length.
    + done.
    + done.
Qed.
End StoreFacts.

Section TakeDropStore.
Context {E : Type}.
Variable zero : E.
Variable grow : nat → nat.
Implicit Types (h : Mem.store E).

Lemma view_not_nil h (collection : Mem.slice) :
  Mem.is_nil collection = false →
  Mem.view h collection = Some (elems (Mem.view h collection)).
Proof.
  unfold Mem.is_nil, Mem.view. by destruct (Mem.base collection).
Qed.

Lemma view_is_nil h (collection : Mem.slice) :
  Mem.is_nil collection = true → Mem.view h collection = None.
Proof.
  unfold Mem.is_nil, Mem.view. by destruct (Mem.base collection).
Qed.

Lemma Take_store h (collection : Mem.slice) (n : Z) :
  Mem.valid h collection →
  ∃ r h', Mem.Take zero grow collection n h = Some (r, h')
          ∧ Mem.view h' r = Take (Mem.view h collection) n
          ∧ take (length h) h' = h
          ∧ ((0 < Mem.len r)%nat → Mem.base r = Some (length h)).
Proof.
  intros Hvalid. unfold Mem.Take.
  destruct (Mem.is_nil collection) eqn:Hnil.
  { exists Mem.nil, h. rewrite (view_is_nil h collection) by done.
    split_and!; [done|done|by rewrite firstn_all|simpl; lia]. }
  pose proof (length_view h collection Hvalid) as Hlen.
  rewrite (view_not_nil h collection Hnil), Take_present.
  set (l := elems (Mem.view h collection)) in *.
  destruct (Z.leb_spec n 0) as [Hn|Hn].
  { eexists _, _. split; [reflexivity|]. unfold Mem.empty, Mem.alloc, Mem.view.
    simpl. rewrite array_alloc. replace (Z.to_nat n) with 0%nat by lia.
    split_and!; [done|by rewrite take_app_length|done]. }
  destruct (n >=? Z.of_nat (Mem.len collection)) eqn:Hge.
  { apply Z.geb_le in Hge.
    pose proof (Clone_spec zero grow h collection Hvalid)
      as (Hview & _ & Htake & Hl & Hfresh).
    destruct (Mem.Clone zero grow collection h) as [r h']. simpl in *.
    exists r, h'. split; [done|]. split_and!; try done.
    - rewrite Hview, (view_not_nil h collection Hnil). f_equal. fold l.
      symmetry. apply take_ge. lia.
    - intros Hpos. apply Hfresh. lia. }
  assert (n < Z.of_nat (Mem.len collection)) as Hlt.
  { destruct (Z.geb_spec n (Z.of_nat (Mem.len collection))); [done|lia]. }
  destruct (view_subslice h collection 0 n Hvalid Hnil)
    as (p & -> & Hp & Hpview & _ & Hplen); [lia..|].
  cbn [mbind option_bind].
  pose proof (Clone_spec zero grow h p Hp) as (Hview & _ & Htake & Hl & Hfresh).
  destruct (Mem.Clone zero grow p h) as [r h']. simpl in *.
  exists r, h'. split; [done|]. split_and!; try done.
  - rewrite Hview, Hpview. fold l. by rewrite Z.sub_0_r.
  - intros Hpos. apply Hfresh. lia.
Qed.

Lemma Drop_store h (collection : Mem.slice) (n : Z) :
  Mem.valid h collection →
  ∃ r h', Mem_Drop zero grow collection n h = Some (r, h')
          ∧ Mem.view h' r = Drop (Mem.view h collection) n
          ∧ take (length h) h' = h
          ∧ ((0 < Mem.len r)%nat → Mem.base r = Some (length h)).
Proof.
  intros Hvalid. unfold Mem_Drop.
  destruct (Mem.is_nil collection) eqn:Hnil.
  { exists Mem.nil, h. rewrite (view_is_nil h collection) by done.
    split_and!; [done|done|by rewrite firstn_all|simpl; lia]. }
  pose proof (length_view h collection Hvalid) as Hlen.
  rewrite (view_not_nil h collection Hnil), Drop_present.
  set (l := elems (Mem.view h collection)) in *.
  destruct (Z.leb_spec n 0) as [Hn|Hn].
  { pose proof (Clone_spec zero grow h collection Hvalid)
      as (Hview & _ & Htake & Hl & Hfresh).
    destruct (Mem.Clone zero grow collection h) as [r h']. simpl in *.
    exists r, h'. split; [done|]. split_and!; try done.
    - rewrite Hview, (view_not_nil h collection Hnil). fold l.
      by replace (Z.to_nat n) with 0%nat by lia.
    - intros Hpos. apply Hfresh. lia. }
  destruct (n >=? Z.of_nat (Mem.len collection)) eqn:Hge.
  { apply Z.geb_le in Hge.
    eexists _, _. split; [reflexivity|]. unfold Mem.empty, Mem.alloc, Mem.view.
    simpl. rewrite array_alloc. rewrite (drop_ge l) by lia.
    split_and!; [done|by rewrite take_app_length|done]. }
  assert (n < Z.of_nat (Mem.len collection)) as Hlt.
  { destruct (Z.geb_spec n (Z.of_nat (Mem.len collection))); [done|lia]. }
  destruct (view_subslice h collection n (Z.of_nat (Mem.len collection)) Hvalid Hnil)
    as (p & -> & Hp & Hpview & _ & Hplen); [lia..|].
  cbn [mbind option_bind].
  pose proof (Clone_spec zero grow h p Hp) as (Hview & _ & Htake & Hl & Hfresh).
  destruct (Mem.Clone zero grow p h) as [r h']. simpl in *.
  exists r, h'. split; [done|]. split_and!; try done.
  - rewrite Hview, Hpview. fold l. f_equal. apply take_ge.
    rewrite length_drop. lia.
  - intros Hpos. apply Hfresh. lia.
Qed.
End TakeDropStore.

(** X21.  On the store, [Take] and [Drop] of a valid slice do not panic,
    show what [Take] and [Drop] return on values, leave every array that was
    there before as it was, and a result that has elements lives in a newly
    allocated array: writing through it cannot reach the input. *)
Theorem Take_Drop_never_alias {E : Type} (zero : E) (grow : nat → nat)
    (h : Mem.store E) (collection : Mem.slice) (n : Z) :
  Mem.valid h collection →
  (∃ r h', Mem.Take zero grow collection n h = Some (r, h')
           ∧ Mem.view h' r = Take (Mem.view h collection) n
           ∧ take (length h) h' = h
           ∧ ((0 < Mem.len r)%nat → Mem.base r = Some (length h)))
  ∧ (∃ r h', Mem_Drop zero grow collection n h = Some (r, h')
             ∧ Mem.view h' r = Drop (Mem.view h collection) n
             ∧ take (length h) h' = h
             ∧ ((0 < Mem.len r)%nat → Mem.base r = Some (length h))).
Proof.
  intros Hvalid. split; [by apply Take_store | by apply Drop_store].
Qed.

Lemma Take_Drop_never_alias_witness :
  let h : Mem.store Z := [[1; 2; 3; 4; 5]] in
  let input := Mem.Header (Some 0%nat) 0 5 5 in
  (∃ r h', Mem.Take 0 id input 2 h = Some (r, h')
           ∧ Mem.view h' r = Take (Mem.view h input) 2
           ∧ take (length h) h' = h
           ∧ ((0 < Mem.len r)%nat → Mem.base r = Some (length h)))
  ∧ (∃ r h', Mem_Drop 0 id input 2 h = Some (r, h')
             ∧ Mem.view h' r = Drop (Mem.view h input) 2
             ∧ take (length h) h' = h
             ∧ ((0 < Mem.len r)%nat → Mem.base r = Some (length h))).
Proof.
  apply (Take_Drop_never_alias 0 id [[1; 2; 3; 4; 5]]
           (Mem.Header (Some 0%nat) 0 5 5) 2).
  unfold Mem.valid. simpl. lia.
Defined.

(** ** Chunk regroups its input *)

Section ChunkRegroups.
Context {E : Type}.
Implicit Types (h : Mem.store E).

End ChunkRegroups.



(** ** How the transforms compose *)

Section Composition.
Context {E : Type}.
Implicit Types (l : list E).

Lemma select_from_filter (p : E → bool) l : ∀ i,
  select_from (λ item _, p item) i l = filter (λ item, p item = true) l.
Proof.
  induction l as [|x l IH]; intros i; simpl; [done|].
  rewrite filter_cons, IH. by destruct (p x).
Qed.

Lemma Filter_plain (p : E → bool) (collection : Slice E) :
  Filter collection (λ item _, p item)
  = match collection with
    | None => None
    | Some l => grown None (filter (λ item, p item = true) l)
    end.
Proof.
  destruct collection as [l|]; [|done].
  by rewrite Filter_present, select_from_filter.
Qed.

Lemma filter_Forall_id (P : E → Prop) `{∀ x, Decision (P x)} l :
  Forall P l → filter P l = l.
Proof.
  induction 1 as [|x k Hx Hk IH]; [done|].
  by rewrite filter_cons_True, IH by done.
Qed.

Lemma map_from_map_from {R S : Type} (f : E → nat → R) (g : R → nat → S) l : ∀ i,
  map_from g i (map_from f i l) = map_from (λ item k, g (f item k) k) i l.
Proof. induction l as [|x l IH]; intros i; simpl; [done|]. by rewrite IH. Qed.
End Composition.

(** X23.  Two [Map]s in a row are one [Map] with the composed iteratee,
    each iteratee being handed the same index; nil stays nil. *)
Theorem Map_compose {E R S : Type} (zeroR : R) (zeroS : S) (collection : Slice E)
    (f : E → nat → R) (g : R → nat → S) :
  Map zeroS (Map zeroR collection f) g
  = Map zeroS collection (λ item k, g (f item k) k).
Proof.
  destruct collection as [l|]; [|done].
  by rewrite !Map_present, map_from_map_from.
Qed.

(** X24.  For predicates that do not look at the index, filtering twice is
    filtering once by the conjunction, with the same nil or not-nil
    outcome. *)
Theorem Filter_twice {E : Type} (collection : Slice E) (p q : E → bool) :
  Filter (Filter collection (λ item _, p item)) (λ item _, q item)
  = Filter collection (λ item _, p item && q item).
Proof.
  rewrite !Filter_plain. destruct collection as [l|]; [|done].
  assert (filter (λ item, q item = true) (filter (λ item, p item = true) l)
          = filter (λ item, p item && q item = true) l) as Hboth.
  { rewrite list_filter_filter. apply list_filter_iff. intros x.
    rewrite andb_true_iff. tauto. }
  rewrite <- Hboth.
  destruct (filter (λ item, p item = true) l) as [|x k]; [done|].
  done.
Qed.

(** X25.  [Intersect] of a slice with itself is [Unique] of the slice,
    nil for nil and, as [Unique] has it, nil for the empty slice. *)
Theorem Intersect_self_is_Unique `{Countable E} (collection : Slice E) :
  Intersect [collection; collection] = Unique collection.
Proof.
  rewrite Intersect_several, Unique_grown. cbv zeta.
  assert (filter (λ x, Forall (λ o : Slice E, x ∈ elems o) [collection])
                 (keep_first [] (elems collection))
          = keep_first [] (elems collection)) as ->.
  { apply filter_Forall_id, Forall_forall. intros x Hx.
    constructor; [|constructor]. apply elem_of_keep_first in Hx. tauto. }
  destruct (keep_first [] (elems collection)) as [|x q] eqn:Hq; [|done].
  destruct (elems collection) as [|y l] eqn:Hl; [done|].
  done.
Qed.

(** X26.  [Take] and [Drop] clamp their count to the slice: [Take] returns
    [n] elements, none for a negative [n] and all of them for an [n] past
    the end, [Drop] returns the others, and taking twice is taking the
    smaller count. *)
Theorem Take_Drop_clamp {E : Type} (l : list E) (n m : Z) :
  len (Take (Some l) n) = Z.max 0 (Z.min n (len (Some l)))
  ∧ len (Drop (Some l) n) = len (Some l) - Z.max 0 (Z.min n (len (Some l)))
  ∧ Take (Take (Some l) m) n = Take (Some l) (Z.min n m)
  ∧ (len (Some l) ≤ n → Take (Some l) n = Some l ∧ Drop (Some l) n = Some [])
  ∧ (n ≤ 0 → Take (Some l) n = Some [] ∧ Drop (Some l) n = Some l).
Proof.
  rewrite !Take_present, !Drop_present. unfold len. simpl elems.
  rewrite length_take, length_drop. split_and!.
  - lia.
  - lia.
  - rewrite take_take. f_equal. f_equal. lia.
  - intros Hn. by rewrite take_ge, drop_ge by lia.
  - intros Hn. by replace (Z.to_nat n) with 0%nat by lia.
Qed.
